(* ===================================================================== *)
(* hcledit, editor/attribute_get.go: address resolution and raw values.   *)
(*                                                                        *)
(* A shallow embedding of findAttribute, findLongestMatchingBlocks,       *)
(* allMatchingBlocksByType, longestMatchingLabels,                        *)
(* getAttributeValueAsString and of the attributeGet filter and sink,     *)
(* over a model of the parts of Go's strings package and of hclwrite      *)
(* that these functions call.                                             *)
(*                                                                        *)
(* The functions read the document and never write to it, so a Go         *)
(* pointer to a body, a block or an attribute is modelled by the node     *)
(* itself. A Go result (v, err) is a value of Result. GetAttribute, the   *)
(* entry point that runs the filter and the sink through Editor.Apply,    *)
(* lies outside the file and is not modelled.                             *)
(* ===================================================================== *)

From Equations Require Import Equations.
From Stdlib Require Import List Arith Lia Bool Ascii String.
Import ListNotations.
Local Open Scope string_scope.
Local Open Scope list_scope.
Local Open Scope nat_scope.

(* ===================================================================== *)
(** * Go's strings package                                                *)
(* ===================================================================== *)

(** A Go string is a sequence of bytes: [string] with one [ascii] per
    byte. *)
Module strings.

Definition dot : ascii := "."%char.

(** [strings.Split(s, ".")]: the substrings between the dots. The result
    is never empty: splitting the empty string gives the one-element
    slice that holds the empty string. *)
Fixpoint Split (s : string) : list string :=
  match s with
  | EmptyString => [EmptyString]
  | String c s' =>
      if Ascii.eqb c dot then EmptyString :: Split s'
      else match Split s' with
           | x :: xs => String c x :: xs
           | [] => [String c EmptyString]
           end
  end.

(** [strings.Join(elems, ".")]. *)
Fixpoint Join (elems : list string) : string :=
  match elems with
  | [] => EmptyString
  | [x] => x
  | x :: rest => x ++ String dot (Join rest)
  end.

(** Whether [s] holds a dot, that is whether [Split] cuts it. *)
Fixpoint hasDot (s : string) : bool :=
  match s with
  | EmptyString => false
  | String c s' => Ascii.eqb c dot || hasDot s'
  end.

(** White space as [unicode.IsSpace] has it, on the UTF-8 bytes of the
    string: the six ASCII characters, and the encodings of U+0085,
    U+00A0, U+1680, U+2000..U+200A, U+2028, U+2029, U+202F, U+205F
    and U+3000. *)
Definition asciiSpace (c : ascii) : bool :=
  let n := nat_of_ascii c in
  existsb (Nat.eqb n) [9; 10; 11; 12; 13; 32].

Definition bytes (l : list nat) : string :=
  string_of_list_ascii (map ascii_of_nat l).

Definition wideSpaces : list string :=
  bytes [194; 133] :: bytes [194; 160] :: bytes [225; 154; 128]
  :: map (fun k => bytes [226; 128; 128 + k]) (seq 0 11)
  ++ [bytes [226; 128; 168]; bytes [226; 128; 169]; bytes [226; 128; 175];
      bytes [226; 129; 159]; bytes [227; 128; 128]].

(** The number of bytes of the white-space character [s] starts with, 0
    when there is none. [enc] is the identity, or [revString] when [s] is
    a string read backwards. *)
Definition revString (s : string) : string :=
  string_of_list_ascii (rev (list_ascii_of_string s)).

Definition spaceLen (enc : string -> string) (s : string) : nat :=
  match s with
  | EmptyString => 0
  | String c _ =>
      if asciiSpace c then 1
      else match find (fun w => prefix (enc w) s) wideSpaces with
           | Some w => String.length w
           | None => 0
           end
  end.

(** Drop the white space [s] starts with. [skip] counts the bytes still
    to drop of a character already recognised. *)
Fixpoint trimStart (enc : string -> string) (skip : nat) (s : string) : string :=
  match s with
  | EmptyString => EmptyString
  | String _ s' =>
      match skip with
      | S k => trimStart enc k s'
      | 0 => match spaceLen enc s with
             | 0 => s
             | S k => trimStart enc k s'
             end
      end
  end.

Definition TrimLeftSpace (s : string) : string :=
  trimStart (fun w => w) 0 s.

Definition TrimRightSpace (s : string) : string :=
  revString (trimStart revString 0 (revString s)).

(** [strings.TrimSpace]. *)
Definition TrimSpace (s : string) : string :=
  TrimRightSpace (TrimLeftSpace s).

(** ** What the resolver's termination and the address lemmas need *)

Lemma Split_nonempty (s : string) : Split s <> [].
Proof.
  destruct s as [|c s]; simpl; [discriminate|].
  destruct (Ascii.eqb c dot); [discriminate|].
  destruct (Split s); discriminate.
Qed.

Lemma Join_cons (x y : string) (rest : list string) :
  Join (x :: y :: rest) = (x ++ String dot (Join (y :: rest)))%string.
Proof. reflexivity. Qed.

Lemma Join_Split (s : string) : Join (Split s) = s.
Proof.
  induction s as [|c s IH]; [reflexivity|].
  simpl. destruct (Ascii.eqb_spec c dot) as [->|Hc].
  - pose proof (Split_nonempty s) as Hne.
    destruct (Split s) as [|y rest]; [congruence|].
    rewrite Join_cons, IH. reflexivity.
  - pose proof (Split_nonempty s) as Hne.
    destruct (Split s) as [|y rest]; [congruence|].
    destruct rest as [|z rest].
    + simpl in *. now rewrite IH.
    + rewrite Join_cons. rewrite Join_cons in IH.
      change (String c (y ++ String dot (Join (z :: rest)))%string = String c s).
      now rewrite IH.
Qed.

Lemma length_append (s t : string) :
  String.length (s ++ t)%string = String.length s + String.length t.
Proof. induction s; simpl; auto. Qed.

Lemma length_Join_tail (x : string) (rest : list string) :
  String.length (Join rest) <= String.length (Join (x :: rest)).
Proof.
  destruct rest as [|y rest]; [simpl; lia|].
  rewrite Join_cons, length_append. simpl. lia.
Qed.

Lemma length_Join_skipn (k : nat) (l : list string) :
  String.length (Join (skipn k l)) <= String.length (Join l).
Proof.
  revert l; induction k as [|k IH]; intros l; [simpl; lia|].
  destruct l as [|x rest]; [simpl; lia|].
  change (skipn (S k) (x :: rest)) with (skipn k rest).
  pose proof (IH rest). pose proof (length_Join_tail x rest). lia.
Qed.

(** Dropping the first segment of a non-empty address, and any number of
    further ones, leaves a strictly shorter address. *)
Lemma nested_address_shorter (address : string) (k : nat) :
  address <> EmptyString ->
  String.length (Join (skipn (1 + k) (Split address))) < String.length address.
Proof.
  intros Hne. pose proof (Join_Split address) as HJ.
  pose proof (Split_nonempty address) as HS.
  destruct (Split address) as [|x rest]; [congruence|].
  change (skipn (1 + k) (x :: rest)) with (skipn k rest).
  pose proof (length_Join_skipn k rest) as Hk.
  destruct rest as [|y rest].
  - simpl in HJ. subst x. rewrite skipn_nil. simpl.
    destruct address; [congruence|simpl; lia].
  - rewrite Join_cons in HJ.
    assert (HL : String.length address
                 = String.length x + S (String.length (Join (y :: rest)))).
    { rewrite <- HJ at 1. now rewrite length_append. }
    lia.
Qed.

(** ** Segments *)

Lemma Split_no_dot (s : string) : hasDot s = false -> Split s = [s].
Proof.
  induction s as [|c s IH]; simpl; [reflexivity|].
  destruct (Ascii.eqb c dot); simpl; [discriminate|].
  intros H. now rewrite (IH H).
Qed.

Lemma Split_with_dot (s : string) :
  hasDot s = true -> 2 <= List.length (Split s).
Proof.
  induction s as [|c s IH]; simpl; [discriminate|].
  pose proof (Split_nonempty s) as Hne.
  destruct (Ascii.eqb c dot); simpl.
  - intros _. destruct (Split s); [congruence|simpl; lia].
  - intros H. specialize (IH H).
    destruct (Split s); [congruence|exact IH].
Qed.

Lemma Split_one_segment (s : string) :
  List.length (Split s) = 1 <-> hasDot s = false.
Proof.
  split.
  - intros H. destruct (hasDot s) eqn:E; [|reflexivity].
    apply Split_with_dot in E. lia.
  - intros H. now rewrite Split_no_dot.
Qed.

Lemma Split_segments (s : string) :
  Forall (fun x => hasDot x = false) (Split s).
Proof.
  induction s as [|c s IH]; simpl.
  - repeat constructor.
  - destruct (Ascii.eqb c dot) eqn:E.
    + constructor; [reflexivity|exact IH].
    + destruct (Split s) as [|x xs]; [repeat constructor; simpl; now rewrite E|].
      inversion IH; subst. constructor; [simpl; now rewrite E|assumption].
Qed.

Lemma Split_append_dot (x s : string) :
  hasDot x = false ->
  Split (x ++ String dot s)%string = x :: Split s.
Proof.
  induction x as [|c x IH]; simpl; [reflexivity|].
  destruct (Ascii.eqb c dot); simpl; [discriminate|].
  intros H. now rewrite (IH H).
Qed.

(** Joining segments and splitting again gives the segments back. *)
Lemma Split_Join (l : list string) :
  l <> [] -> Forall (fun x => hasDot x = false) l -> Split (Join l) = l.
Proof.
  induction l as [|x rest IH]; [congruence|].
  intros _ HF. inversion HF as [|? ? Hx Hrest]; subst.
  destruct rest as [|y rest].
  - simpl. now apply Split_no_dot.
  - rewrite Join_cons, Split_append_dot by assumption.
    f_equal. apply IH; [discriminate|assumption].
Qed.

Lemma Forall_skipn (A : Type) (P : A -> Prop) (k : nat) (l : list A) :
  Forall P l -> Forall P (skipn k l).
Proof.
  revert l; induction k as [|k IH]; intros l H; [exact H|].
  destruct l as [|x l]; [constructor|].
  inversion H; subst. simpl. now apply IH.
Qed.

Lemma Forall_firstn (A : Type) (P : A -> Prop) (k : nat) (l : list A) :
  Forall P l -> Forall P (firstn k l).
Proof.
  revert l; induction k as [|k IH]; intros l H; [constructor|].
  destruct l as [|x l]; [constructor|].
  inversion H; subst. simpl. constructor; [assumption|now apply IH].
Qed.

(** ** [TrimSpace] leaves no white space at either end *)

Lemma trimStart_trimmed (enc : string -> string) (s : string) :
  forall skip, spaceLen enc (trimStart enc skip s) = 0.
Proof.
  induction s as [|c s IH]; intros skip; [reflexivity|].
  cbn [trimStart]. destruct skip as [|k]; [|apply IH].
  destruct (spaceLen enc (String c s)) eqn:E; [exact E|apply IH].
Qed.

Lemma trimStart_suffix (enc : string -> string) (s : string) :
  forall skip, exists dropped, s = (dropped ++ trimStart enc skip s)%string.
Proof.
  induction s as [|c s IH]; intros skip; [now exists EmptyString|].
  cbn [trimStart].
  assert (H : forall k, exists dropped,
               String c s = (dropped ++ trimStart enc k s)%string).
  { intros k. destruct (IH k) as [d Hd]. exists (String c d).
    simpl. now rewrite <- Hd. }
  destruct skip as [|k]; [|apply H].
  destruct (spaceLen enc (String c s)); [now exists EmptyString|apply H].
Qed.

Lemma list_ascii_append (s t : string) :
  list_ascii_of_string (s ++ t)
  = list_ascii_of_string s ++ list_ascii_of_string t.
Proof. induction s as [|c s IH]; simpl; [reflexivity|now rewrite IH]. Qed.

Lemma string_of_list_append (l m : list ascii) :
  string_of_list_ascii (l ++ m)
  = (string_of_list_ascii l ++ string_of_list_ascii m)%string.
Proof. induction l as [|c l IH]; simpl; [reflexivity|now rewrite IH]. Qed.

Lemma revString_append (s t : string) :
  revString (s ++ t) = (revString t ++ revString s)%string.
Proof.
  unfold revString. now rewrite list_ascii_append, rev_app_distr, string_of_list_append.
Qed.

Lemma revString_involutive (s : string) : revString (revString s) = s.
Proof.
  unfold revString.
  now rewrite list_ascii_of_string_of_list_ascii, rev_involutive,
    string_of_list_ascii_of_string.
Qed.

(** [TrimRightSpace] keeps a prefix. *)
Lemma TrimRightSpace_prefix (s : string) :
  exists dropped, s = (TrimRightSpace s ++ dropped)%string.
Proof.
  unfold TrimRightSpace.
  destruct (trimStart_suffix revString (revString s) 0) as [d Hd].
  exists (revString d).
  rewrite <- revString_append, <- Hd. symmetry. apply revString_involutive.
Qed.

Lemma prefix_append (w r post : string) :
  prefix w r = true -> prefix w (r ++ post) = true.
Proof.
  revert r; induction w as [|a w IH]; intros r;
    [intros _; now destruct (r ++ post)%string|].
  destruct r as [|b r]; simpl; [discriminate|].
  destruct (ascii_dec a b); [apply IH|discriminate].
Qed.

Lemma wideSpaces_nonempty :
  Forall (fun w => String.length w <> 0) wideSpaces.
Proof. repeat constructor; discriminate. Qed.

(** A string that starts with no white space has no prefix that does. *)
Lemma spaceLen_prefix (r post : string) :
  spaceLen (fun w => w) (r ++ post) = 0 -> spaceLen (fun w => w) r = 0.
Proof.
  destruct r as [|c r]; [reflexivity|].
  cbn [append spaceLen].
  destruct (asciiSpace c); [discriminate|].
  destruct (find (fun w => prefix w (String c (r ++ post))) wideSpaces)
    as [w|] eqn:E.
  - apply find_some in E. destruct E as [Hin _].
    pose proof wideSpaces_nonempty as HF. rewrite Forall_forall in HF.
    specialize (HF w Hin). lia.
  - intros _. destruct (find (fun w => prefix w (String c r)) wideSpaces)
      as [w|] eqn:E'; [|reflexivity].
    apply find_some in E'. destruct E' as [Hin Hp].
    apply (find_none _ _ E) in Hin.
    apply (prefix_append _ _ post) in Hp. simpl in Hp, Hin. congruence.
Qed.

(** What [TrimSpace] returns starts with no white space and, read
    backwards, ends with none. *)
Lemma TrimSpace_trimmed (s : string) :
  spaceLen (fun w => w) (TrimSpace s) = 0
  /\ spaceLen revString (revString (TrimSpace s)) = 0.
Proof.
  unfold TrimSpace. split.
  - destruct (TrimRightSpace_prefix (TrimLeftSpace s)) as [d Hd].
    apply spaceLen_prefix with (post := d). rewrite <- Hd.
    apply trimStart_trimmed.
  - unfold TrimRightSpace. rewrite revString_involutive.
    apply trimStart_trimmed.
Qed.

End strings.

(* ===================================================================== *)
(** * hclsyntax tokens and hclwrite's tree                                *)
(* ===================================================================== *)

Module hclsyntax.

(** [hclsyntax.TokenType]. *)
Inductive TokenType : Type :=
| TokenOBrace | TokenCBrace | TokenOBrack | TokenCBrack
| TokenOParen | TokenCParen | TokenOQuote | TokenCQuote
| TokenOHeredoc | TokenCHeredoc
| TokenStar | TokenSlash | TokenPlus | TokenMinus | TokenPercent
| TokenEqual | TokenEqualOp | TokenNotEqual
| TokenLessThan | TokenLessThanEq | TokenGreaterThan | TokenGreaterThanEq
| TokenAnd | TokenOr | TokenBang
| TokenDot | TokenComma | TokenEllipsis | TokenFatArrow
| TokenQuestion | TokenColon
| TokenTemplateInterp | TokenTemplateControl | TokenTemplateSeqEnd
| TokenQuotedLit | TokenStringLit | TokenNumberLit | TokenIdent
| TokenComment | TokenNewline | TokenEOF
| TokenBitwiseAnd | TokenBitwiseOr | TokenBitwiseNot | TokenBitwiseXor
| TokenStarStar | TokenApostrophe | TokenBacktick | TokenSemicolon
| TokenTabs | TokenInvalid | TokenBadUTF8 | TokenQuotedNewline
| TokenNil.

Definition TokenType_eq_dec (a b : TokenType) : {a = b} + {a <> b}.
Proof. decide equality. Defined.

Definition eqb (a b : TokenType) : bool :=
  if TokenType_eq_dec a b then true else false.

End hclsyntax.

(** The part of hclwrite's syntax tree that the editor reads. *)
Module hclwrite.

Import hclsyntax.

(** [hclwrite.Token]; [Type_] is its field [Type]. *)
Record Token : Type := mkToken {
  Type_ : TokenType;
  Bytes : string;
  SpacesBefore : nat
}.

Definition Tokens : Type := list Token.

Fixpoint spaces (n : nat) : string :=
  match n with
  | 0 => EmptyString
  | S k => String " "%char (spaces k)
  end.

(** [Tokens.Bytes]: each token's [SpacesBefore] spaces then its bytes. *)
Fixpoint Tokens_Bytes (ts : Tokens) : string :=
  match ts with
  | [] => EmptyString
  | t :: rest => spaces (SpacesBefore t) ++ Bytes t ++ Tokens_Bytes rest
  end.

(** An attribute keeps its tokens in its children, in order: the
    comments before it, the name, the equals sign, the expression, the
    comments after it on its line and the end of line. The parser files
    the tokens of the value under the expression and nothing else there. *)
Record Attribute : Type := mkAttribute {
  leadComments : Tokens;
  name : string;
  expr : Tokens;
  lineComments : Tokens;
  eol : Tokens
}.

Definition identToken (n : string) : Token :=
  mkToken TokenIdent n 0.

Definition equalToken : Token :=
  mkToken TokenEqual "=" 0.

Definition newline : string := String (ascii_of_nat 10) EmptyString.

Definition newlineToken : Token :=
  mkToken TokenNewline newline 0.

(** [attr.BuildTokens(nil)]: the tokens of all the children, in order. *)
Definition Attribute_BuildTokens (a : Attribute) : Tokens :=
  leadComments a ++ [identToken (name a)] ++ [equalToken]
    ++ expr a ++ lineComments a ++ eol a.

(** [attr.Expr().BuildTokens(nil)]: the tokens of the expression child
    alone. *)
Definition Expr_BuildTokens (a : Attribute) : Tokens := expr a.

(** A body is the ordered sequence of its attributes and blocks; a
    block has a type, labels and a body. *)
Inductive Node : Type :=
| AttrNode (a : Attribute)
| BlockNode (b : Block)
with Block : Type :=
| mkBlock (type : string) (labels : list string) (body : list Node).

Definition Body : Type := list Node.

Definition Block_Type (b : Block) : string :=
  match b with mkBlock t _ _ => t end.

Definition Block_Labels (b : Block) : list string :=
  match b with mkBlock _ l _ => l end.

Definition Block_Body (b : Block) : Body :=
  match b with mkBlock _ _ bd => bd end.

(** [body.GetAttribute(name)]: the attribute of that name among the
    body's own items, [None] for Go's nil. hclwrite ranges over the set
    of items; a parsed body has no two attributes of one name, and should
    there be two the first in order is taken here. *)
Fixpoint GetAttribute (b : Body) (n : string) : option Attribute :=
  match b with
  | [] => None
  | AttrNode a :: rest =>
      if String.eqb (name a) n then Some a else GetAttribute rest n
  | BlockNode _ :: rest => GetAttribute rest n
  end.

(** [body.Blocks()]: the body's own blocks, in order. *)
Fixpoint Blocks (b : Body) : list Block :=
  match b with
  | [] => []
  | AttrNode _ :: rest => Blocks rest
  | BlockNode blk :: rest => blk :: Blocks rest
  end.

(** [body.SetAttributeRaw(name, tokens)]: the expression of the
    attribute of that name is replaced by the raw tokens, or a new
    attribute with that name and expression is appended. *)
Definition newAttribute (n : string) (tokens : Tokens) : Attribute :=
  mkAttribute [] n tokens [] [newlineToken].

Fixpoint replaceExpr (b : Body) (n : string) (tokens : Tokens) : Body :=
  match b with
  | [] => []
  | AttrNode a :: rest =>
      if String.eqb (name a) n
      then AttrNode (mkAttribute (leadComments a) (name a) tokens
                                 (lineComments a) (eol a)) :: rest
      else AttrNode a :: replaceExpr rest n tokens
  | BlockNode blk :: rest => BlockNode blk :: replaceExpr rest n tokens
  end.

Definition SetAttributeRaw (b : Body) (n : string) (tokens : Tokens) : Body :=
  match GetAttribute b n with
  | Some _ => replaceExpr b n tokens
  | None => b ++ [AttrNode (newAttribute n tokens)]
  end.

(** [hclwrite.File]. *)
Record File : Type := mkFile { File_Body : Body }.

Definition NewEmptyFile : File := mkFile [].

End hclwrite.


(* ===================================================================== *)
(** * editor/attribute_get.go                                             *)
(* ===================================================================== *)

Module editor.

Import strings hclsyntax hclwrite.

(** The two errors of the file: [errors.New("failed to parse address.
    address is empty")] and [fmt.Errorf("failed to find TokenEqual: %#v",
    attr)]. *)
Inductive error : Type :=
| errAddressEmpty
| errTokenEqual (attr : Attribute).

(** A Go result [(v, err)]: [Ok v] stands for [(v, nil)] and [Err e] for
    the zero value with [e]. *)
Inductive Result (A : Type) : Type :=
| Ok (v : A)
| Err (e : error).
Arguments Ok {A} v.
Arguments Err {A} e.

(** [longestMatchingLabels]: the loop over the indices [i] of [prefix];
    [rest] is [prefix[i:]]. *)
Fixpoint longestMatchingLabels_from (labels : list string) (i : nat)
    (rest : list string) (matched : list string) : list string :=
  match rest with
  | [] => matched
  | p :: rest' =>
      if List.length labels <=? i then matched
      else if negb (String.eqb p (nth i labels EmptyString)) then matched
      else longestMatchingLabels_from labels (S i) rest'
             (matched ++ [nth i labels EmptyString])
  end.

Definition longestMatchingLabels (labels prefix : list string) : list string :=
  longestMatchingLabels_from labels 0 prefix [].

(** [allMatchingBlocksByType]. *)
Definition allMatchingBlocksByType (b : Body) (typeName : string) : list Block :=
  fold_left
    (fun matched block =>
       if String.eqb typeName (Block_Type block) then matched ++ [block]
       else matched)
    (Blocks b) [].

(** The loop of [findLongestMatchingBlocks] over the blocks of the
    matching type. [a] is the split address; [nested bd k] stands for the
    recursive call [findLongestMatchingBlocks(bd, strings.Join(a[1+k:], "."))]. *)
Fixpoint matchBlocks (nested : Body -> nat -> Result (list Block))
    (a : list string) (blocks : list Block) (matched : list Block)
    : Result (list Block) :=
  match blocks with
  | [] => Ok matched
  | b :: rest =>
      let labels := Block_Labels b in
      let matchedlabels := longestMatchingLabels labels (skipn 1 a) in
      if List.length matchedlabels <? List.length labels then
        matchBlocks nested a rest matched
      else if (List.length matchedlabels <? List.length a - 1)
              || (List.length labels =? 0) then
        match nested (Block_Body b) (List.length matchedlabels) with
        | Err e => Err e
        | Ok nestedBlocks => matchBlocks nested a rest (matched ++ nestedBlocks)
        end
      else matchBlocks nested a rest (matched ++ [b])
  end.

(** [findLongestMatchingBlocks]. Each recursive call is on a strictly
    shorter address, which is what the recursion is founded on; for that
    the test [len(address) == 0] is made on the string itself.
    [findLongestMatchingBlocks_body] below gives the body as the source
    has it. Go's [a[1+len(matchedlabels):]] is within bounds, the matched
    labels being at most [len(a)-1]. *)
Equations? findLongestMatchingBlocks (body : Body) (address : string)
    : Result (list Block) by wf (String.length address) lt :=
  findLongestMatchingBlocks body address with string_dec address EmptyString := {
    | left _ => Err errAddressEmpty
    | right Hne =>
        let a := Split address in
        let typeName := nth 0 a EmptyString in
        let blocks := allMatchingBlocksByType body typeName in
        if List.length a =? 1 then Ok blocks
        else
          matchBlocks
            (fun bd k => findLongestMatchingBlocks bd (Join (skipn (1 + k) a)))
            a blocks [] }.
Proof. apply nested_address_shorter; assumption. Qed.

(** The loop of [findAttribute] over the matched blocks. *)
Fixpoint firstAttribute (blocks : list Block) (attrName : string)
    : option Attribute * option Body :=
  match blocks with
  | [] => (None, None)
  | b :: rest =>
      match GetAttribute (Block_Body b) attrName with
      | Some attr => (Some attr, Some (Block_Body b))
      | None => firstAttribute rest attrName
      end
  end.

(** [findAttribute]: the attribute and the body that holds it. *)
Definition findAttribute (body : Body) (address : string)
    : Result (option Attribute * option Body) :=
  if String.length address =? 0 then Err errAddressEmpty
  else
    let a := Split address in
    if List.length a =? 1 then
      Ok (GetAttribute body (nth 0 a EmptyString), Some body)
    else
      let attrName := nth (List.length a - 1) a EmptyString in
      let blockAddr := Join (firstn (List.length a - 1) a) in
      match findLongestMatchingBlocks body blockAddr with
      | Err e => Err e
      | Ok blocks =>
          if List.length blocks =? 0 then Ok (None, None)
          else Ok (firstAttribute blocks attrName)
      end.

(** [getAttributeValueAsString]: the index of the first [TokenEqual] ... *)
Fixpoint indexOfTokenEqual (exprTokens : Tokens) : nat :=
  match exprTokens with
  | [] => 0
  | t :: rest =>
      if hclsyntax.eqb (Type_ t) TokenEqual then 0
      else S (indexOfTokenEqual rest)
  end.

(** ... and the tokens from there to the first [TokenComment]. *)
Fixpoint untilTokenComment (ts : Tokens) (valueTokens : Tokens) : Tokens :=
  match ts with
  | [] => valueTokens
  | t :: rest =>
      if hclsyntax.eqb (Type_ t) TokenComment then valueTokens
      else untilTokenComment rest (valueTokens ++ [t])
  end.

Definition getAttributeValueAsString (attr : Attribute) : Result string :=
  let exprTokens := Expr_BuildTokens attr in
  let i := indexOfTokenEqual exprTokens in
  if i =? List.length exprTokens then Err (errTokenEqual attr)
  else
    let valueTokens := untilTokenComment (skipn (i + 1) exprTokens) [] in
    let value := TrimSpace (Tokens_Bytes valueTokens) in
    Ok value.

(** [attributeGet]: the filter and the sink hold the address. *)
Record attributeGet : Type := mkAttributeGet { address : string }.

(** [attributeGet.Filter]. *)
Definition Filter (f : attributeGet) (inFile : File) : Result File :=
  match findAttribute (File_Body inFile) (address f) with
  | Err e => Err e
  | Ok (attr, _) =>
      let outFile := NewEmptyFile in
      match attr with
      | Some at_ =>
          Ok (mkFile (SetAttributeRaw (File_Body outFile) (address f)
                        (Attribute_BuildTokens at_)))
      | None => Ok outFile
      end
  end.

(** [attributeGet.Sink]: the bytes written. *)
Definition Sink (f : attributeGet) (inFile : File) : Result string :=
  let attrName := address f in
  match GetAttribute (File_Body inFile) attrName with
  | None => Ok EmptyString
  | Some attr =>
      match getAttributeValueAsString attr with
      | Err e => Err e
      | Ok out => Ok (out ++ newline)%string
      end
  end.

(** ** Reference notions the properties are stated against *)

(** The longest common prefix of two sequences, by recursion on both. *)
Fixpoint commonPrefix (labels prefix : list string) : list string :=
  match labels, prefix with
  | l :: ls, p :: ps => if String.eqb p l then l :: commonPrefix ls ps else []
  | _, _ => []
  end.

(** [l] starts with [p]. *)
Definition isPrefix (p l : list string) : Prop := exists rest, l = p ++ rest.

(** A search of [body] for [address] comes to an empty address: the
    address is empty, or a block that the loop searches further does, in
    its body, for its nested address. *)
Inductive emptySubAddress : Body -> string -> Prop :=
| emptySubAddress_here (body : Body) : emptySubAddress body EmptyString
| emptySubAddress_nested (body : Body) (address : string) (b : Block) :
    let a := Split address in
    let matchedlabels := longestMatchingLabels (Block_Labels b) (skipn 1 a) in
    2 <= List.length a ->
    In b (allMatchingBlocksByType body (nth 0 a EmptyString)) ->
    ~ List.length matchedlabels < List.length (Block_Labels b) ->
    List.length matchedlabels < List.length a - 1 \/ Block_Labels b = [] ->
    emptySubAddress (Block_Body b)
      (Join (skipn (1 + List.length matchedlabels) a)) ->
    emptySubAddress body address.

(** [b] is a block of the document [body], at any depth. *)
Inductive blockOf : Body -> Block -> Prop :=
| blockOf_child (body : Body) (b : Block) :
    In (BlockNode b) body -> blockOf body b
| blockOf_nested (body : Body) (parent b : Block) :
    In (BlockNode parent) body -> blockOf (Block_Body parent) b ->
    blockOf body b.

(** Where a block found stands in the address: its type is a segment,
    the last one or the one before its labels, which end the address. *)
Definition addressedBy (segments : list string) (b : Block) : Prop :=
  exists before after,
    segments = before ++ Block_Type b :: after
    /\ (after = [] \/ after = Block_Labels b).

(** Tokens other than the equals sign, and other than a comment. *)
Definition notEqual (t : Token) : Prop := Type_ t <> TokenEqual.

Definition notComment (t : Token) : Prop := Type_ t <> TokenComment.

(** ** Documents of the scenarios *)

Definition quote : string := String (ascii_of_nat 34) EmptyString.

(** The tokens of the quoted string [v], after one space. *)
Definition quoted (v : string) : Tokens :=
  [mkToken TokenOQuote quote 1; mkToken TokenQuotedLit v 0;
   mkToken TokenCQuote quote 0].

(** The attribute [n = "v"]. *)
Definition stringAttribute (n v : string) : Attribute :=
  mkAttribute [] n (quoted v) [] [newlineToken].

(** [resource "aws_instance" "foo" { ami = "x" }]. *)
Definition resourceBlock : Block :=
  mkBlock "resource" ["aws_instance"; "foo"] [AttrNode (stringAttribute "ami" "x")].

Definition resourceDocument : Body := [BlockNode resourceBlock].

(** [a { b = "1" } a { b = "2" }]. *)
Definition firstA : Block := mkBlock "a" [] [AttrNode (stringAttribute "b" "1")].

Definition secondA : Block := mkBlock "a" [] [AttrNode (stringAttribute "b" "2")].

Definition twoBlocksDocument : Body := [BlockNode firstA; BlockNode secondA].

(** [name = "value" # comment]. *)
Definition commentToken : Token :=
  mkToken TokenComment ("# comment" ++ newline)%string 1.

Definition commentedAttribute : Attribute :=
  mkAttribute [] "name" (quoted "value") [commentToken] [].

(* ===================================================================== *)
(** * The loops, as equations                                             *)
(* ===================================================================== *)

(** The body of [findLongestMatchingBlocks], as the source has it. *)
Lemma findLongestMatchingBlocks_body (body : Body) (address : string) :
  findLongestMatchingBlocks body address =
  if String.length address =? 0 then Err errAddressEmpty
  else
    let a := Split address in
    let typeName := nth 0 a EmptyString in
    let blocks := allMatchingBlocksByType body typeName in
    if List.length a =? 1 then Ok blocks
    else
      matchBlocks
        (fun bd k => findLongestMatchingBlocks bd (Join (skipn (1 + k) a)))
        a blocks [].
Proof.
  rewrite findLongestMatchingBlocks_equation_1.
  destruct (string_dec address EmptyString) as [->|Hne]; [reflexivity|].
  destruct address as [|c s]; [congruence|]. reflexivity.
Qed.

Lemma longestMatchingLabels_from_eq (labels rest : list string) :
  forall i matched,
    longestMatchingLabels_from labels i rest matched
    = matched ++ commonPrefix (skipn i labels) rest.
Proof.
  induction rest as [|p rest IH]; intros i matched; simpl.
  - destruct (skipn i labels); now rewrite app_nil_r.
  - destruct (Nat.leb_spec (List.length labels) i) as [Hle|Hlt].
    + rewrite skipn_all2 by assumption. now rewrite app_nil_r.
    + assert (Hs : skipn i labels
                   = nth i labels EmptyString :: skipn (S i) labels).
      { clear -Hlt. revert i Hlt.
        induction labels as [|l ls IHl]; intros i Hlt; simpl in *; [lia|].
        destruct i as [|i]; [reflexivity|].
        apply IHl. lia. }
      rewrite Hs. cbn [commonPrefix].
      destruct (String.eqb p (nth i labels EmptyString)); cbn [negb].
      * rewrite IH, <- app_assoc. reflexivity.
      * now rewrite app_nil_r.
Qed.

(** [longestMatchingLabels] computes the common prefix. *)
Lemma longestMatchingLabels_eq (labels prefix : list string) :
  longestMatchingLabels labels prefix = commonPrefix labels prefix.
Proof.
  unfold longestMatchingLabels. now rewrite longestMatchingLabels_from_eq.
Qed.

Lemma commonPrefix_prefix_l (labels prefix : list string) :
  isPrefix (commonPrefix labels prefix) labels.
Proof.
  revert prefix; induction labels as [|l ls IH]; intros prefix.
  - exists []. reflexivity.
  - destruct prefix as [|p ps]; simpl; [now exists (l :: ls)|].
    destruct (String.eqb p l); [|now exists (l :: ls)].
    destruct (IH ps) as [rest Hrest]. exists rest. simpl. now rewrite <- Hrest.
Qed.

Lemma commonPrefix_prefix_r (labels prefix : list string) :
  isPrefix (commonPrefix labels prefix) prefix.
Proof.
  revert prefix; induction labels as [|l ls IH]; intros prefix.
  - exists prefix. reflexivity.
  - destruct prefix as [|p ps]; simpl; [now exists []|].
    destruct (String.eqb_spec p l) as [->|Hne]; [|now exists (p :: ps)].
    destruct (IH ps) as [rest Hrest]. exists rest. simpl. now rewrite <- Hrest.
Qed.

Lemma commonPrefix_greatest (labels prefix q : list string) :
  isPrefix q labels -> isPrefix q prefix ->
  isPrefix q (commonPrefix labels prefix).
Proof.
  revert labels prefix; induction q as [|x q IH]; intros labels prefix.
  - intros _ _. now exists (commonPrefix labels prefix).
  - intros [r1 ->] [r2 ->]. simpl. rewrite String.eqb_refl.
    destruct (IH (q ++ r1) (q ++ r2)) as [rest Hrest]; [now exists r1|now exists r2|].
    exists rest. simpl. now rewrite <- Hrest.
Qed.

Lemma commonPrefix_length_le (labels prefix : list string) :
  List.length (commonPrefix labels prefix) <= List.length labels
  /\ List.length (commonPrefix labels prefix) <= List.length prefix.
Proof.
  destruct (commonPrefix_prefix_l labels prefix) as [r1 H1].
  destruct (commonPrefix_prefix_r labels prefix) as [r2 H2].
  split.
  - rewrite H1 at 2. rewrite length_app. lia.
  - rewrite H2 at 2. rewrite length_app. lia.
Qed.

(** A common prefix as long as a sequence is that sequence. *)
Lemma isPrefix_full (p l : list string) :
  isPrefix p l -> List.length p = List.length l -> p = l.
Proof.
  intros [rest ->] H. rewrite length_app in H.
  destruct rest; [now rewrite app_nil_r|simpl in H; lia].
Qed.

Lemma allMatchingBlocksByType_fold (typeName : string) (bs acc : list Block) :
  fold_left
    (fun matched block =>
       if String.eqb typeName (Block_Type block) then matched ++ [block]
       else matched) bs acc
  = acc ++ filter (fun b => String.eqb typeName (Block_Type b)) bs.
Proof.
  revert acc; induction bs as [|b bs IH]; intros acc; simpl.
  - now rewrite app_nil_r.
  - rewrite IH. destruct (String.eqb typeName (Block_Type b)); [|reflexivity].
    now rewrite <- app_assoc.
Qed.

(** [allMatchingBlocksByType] keeps the blocks of the type, in order. *)
Lemma allMatchingBlocksByType_filter (body : Body) (typeName : string) :
  allMatchingBlocksByType body typeName
  = filter (fun b => String.eqb typeName (Block_Type b)) (Blocks body).
Proof. unfold allMatchingBlocksByType. now rewrite allMatchingBlocksByType_fold. Qed.

Lemma In_Blocks (body : Body) (b : Block) :
  In b (Blocks body) <-> In (BlockNode b) body.
Proof.
  induction body as [|n body IH]; simpl; [tauto|].
  destruct n as [a|b']; simpl; rewrite IH.
  - split; [tauto|]. intros [H|H]; [discriminate|assumption].
  - split; intros [H|H]; auto; left; congruence.
Qed.

Lemma Blocks_app (b1 b2 : Body) : Blocks (b1 ++ b2) = Blocks b1 ++ Blocks b2.
Proof.
  induction b1 as [|n b1 IH]; simpl; [reflexivity|].
  destruct n; simpl; now rewrite IH.
Qed.

Lemma GetAttribute_In (body : Body) (n : string) (a : Attribute) :
  GetAttribute body n = Some a -> In (AttrNode a) body /\ name a = n.
Proof.
  induction body as [|x body IH]; simpl; [discriminate|].
  destruct x as [a'|b].
  - destruct (String.eqb_spec (name a') n) as [E|E].
    + intros [= ->]. auto.
    + intros H. destruct (IH H). auto.
  - intros H. destruct (IH H). auto.
Qed.

(** ** One turn of the loop of [findLongestMatchingBlocks] *)

Section MatchBlocks.

Variable nested : Body -> nat -> Result (list Block).
Variable a : list string.

Let matchedOf (b : Block) : list string :=
  longestMatchingLabels (Block_Labels b) (skipn 1 a).

Lemma matchBlocks_skip (b : Block) (rest matched : list Block) :
  List.length (matchedOf b) < List.length (Block_Labels b) ->
  matchBlocks nested a (b :: rest) matched = matchBlocks nested a rest matched.
Proof.
  intros H. cbn [matchBlocks]. cbv zeta.
  apply Nat.ltb_lt in H. fold (matchedOf b). now rewrite H.
Qed.

Lemma matchBlocks_nested (b : Block) (rest matched : list Block) :
  ~ List.length (matchedOf b) < List.length (Block_Labels b) ->
  List.length (matchedOf b) < List.length a - 1 \/ Block_Labels b = [] ->
  matchBlocks nested a (b :: rest) matched
  = match nested (Block_Body b) (List.length (matchedOf b)) with
    | Err e => Err e
    | Ok nestedBlocks => matchBlocks nested a rest (matched ++ nestedBlocks)
    end.
Proof.
  intros H1 H2. cbn [matchBlocks]. cbv zeta. fold (matchedOf b).
  apply Nat.ltb_nlt in H1. rewrite H1.
  destruct H2 as [H2|H2].
  - apply Nat.ltb_lt in H2. now rewrite H2.
  - rewrite H2. cbn [List.length Nat.eqb]. now rewrite orb_true_r.
Qed.

Lemma matchBlocks_full (b : Block) (rest matched : list Block) :
  ~ List.length (matchedOf b) < List.length (Block_Labels b) ->
  ~ List.length (matchedOf b) < List.length a - 1 ->
  Block_Labels b <> [] ->
  matchBlocks nested a (b :: rest) matched
  = matchBlocks nested a rest (matched ++ [b]).
Proof.
  intros H1 H2 H3. cbn [matchBlocks]. cbv zeta. fold (matchedOf b).
  apply Nat.ltb_nlt in H1. apply Nat.ltb_nlt in H2. rewrite H1, H2.
  destruct (Block_Labels b); [congruence|reflexivity].
Qed.

(** The loop over [bs1 ++ bs2] is the loop over [bs1], then over [bs2]. *)
Lemma matchBlocks_app (bs1 bs2 matched : list Block) :
  matchBlocks nested a (bs1 ++ bs2) matched
  = match matchBlocks nested a bs1 matched with
    | Err e => Err e
    | Ok found => matchBlocks nested a bs2 found
    end.
Proof.
  revert matched; induction bs1 as [|b bs1 IH]; intros matched; [reflexivity|].
  cbn [app matchBlocks]. cbv zeta.
  destruct (_ <? _); [apply IH|].
  destruct (_ || _); [|apply IH].
  destruct (nested _ _); [apply IH|reflexivity].
Qed.

(** What was matched before stays, in front. *)
Lemma matchBlocks_Ok_prefix (bs matched found : list Block) :
  matchBlocks nested a bs matched = Ok found ->
  exists more, found = matched ++ more.
Proof.
  revert matched; induction bs as [|b bs IH]; intros matched.
  - intros [= <-]. exists []. now rewrite app_nil_r.
  - cbn [matchBlocks]. cbv zeta.
    destruct (_ <? _); [apply IH|].
    destruct (_ || _).
    + destruct (nested _ _) as [nb|e]; [|discriminate].
      intros H. destruct (IH _ H) as [more ->].
      exists (nb ++ more). now rewrite app_assoc.
    + intros H. destruct (IH _ H) as [more ->].
      exists ([b] ++ more). now rewrite app_assoc.
Qed.

(** The loop fails exactly when a nested search it makes fails. *)
Lemma matchBlocks_Err_inv (bs matched : list Block) (e : error) :
  matchBlocks nested a bs matched = Err e ->
  exists b, In b bs
    /\ ~ List.length (matchedOf b) < List.length (Block_Labels b)
    /\ (List.length (matchedOf b) < List.length a - 1 \/ Block_Labels b = [])
    /\ nested (Block_Body b) (List.length (matchedOf b)) = Err e.
Proof.
  revert matched; induction bs as [|b bs IH]; intros matched; [discriminate|].
  cbn [matchBlocks]. cbv zeta. fold (matchedOf b).
  destruct (Nat.ltb_spec (List.length (matchedOf b)) (List.length (Block_Labels b))) as [Hlt|Hge].
  { intros H. destruct (IH _ H) as (b' & Hin & Hb'). exists b'. simpl. auto. }
  destruct (_ || _) eqn:Hor.
  - destruct (nested _ _) as [nb|e'] eqn:Hn.
    + intros H. destruct (IH _ H) as (b' & Hin & Hb'). exists b'. simpl. auto.
    + intros [= ->]. exists b. repeat split; [now left|lia| |exact Hn].
      apply orb_true_iff in Hor. destruct Hor as [Hor|Hor].
      * left. now apply Nat.ltb_lt.
      * right. apply Nat.eqb_eq in Hor. now destruct (Block_Labels b).
  - intros H. destruct (IH _ H) as (b' & Hin & Hb'). exists b'. simpl. auto.
Qed.

Lemma matchBlocks_Err_intro (bs matched : list Block) (b : Block) (e : error) :
  In b bs ->
  ~ List.length (matchedOf b) < List.length (Block_Labels b) ->
  List.length (matchedOf b) < List.length a - 1 \/ Block_Labels b = [] ->
  nested (Block_Body b) (List.length (matchedOf b)) = Err e ->
  exists e', matchBlocks nested a bs matched = Err e'.
Proof.
  intros Hin H1 H2 Hn. apply in_split in Hin. destruct Hin as (pre & post & ->).
  rewrite matchBlocks_app.
  destruct (matchBlocks nested a pre matched) as [found|e']; [|now exists e'].
  rewrite matchBlocks_nested by assumption. rewrite Hn. now exists e.
Qed.

(** A block matched in full is in the result. *)
Lemma matchBlocks_full_In (bs matched found : list Block) (b : Block) :
  In b bs ->
  ~ List.length (matchedOf b) < List.length (Block_Labels b) ->
  ~ List.length (matchedOf b) < List.length a - 1 ->
  Block_Labels b <> [] ->
  matchBlocks nested a bs matched = Ok found ->
  In b found.
Proof.
  intros Hin H1 H2 H3. apply in_split in Hin. destruct Hin as (pre & post & ->).
  rewrite matchBlocks_app.
  destruct (matchBlocks nested a pre matched) as [found'|e']; [|discriminate].
  rewrite matchBlocks_full by assumption.
  intros H. apply matchBlocks_Ok_prefix in H. destruct H as [more ->].
  apply in_or_app. left. apply in_or_app. right. now left.
Qed.

End MatchBlocks.

(* ===================================================================== *)
(** * LabelMatcher                                                        *)
(* ===================================================================== *)

(** C8. [longestMatchingLabels labels segments] is the longest common
    prefix of the two sequences: it is a prefix of [labels] and of
    [segments], every common prefix is a prefix of it, and it stops where
    a sequence ends or the two differ; it is empty when [labels] is empty
    and when the first elements differ. Being a function of its two
    arguments, it has no other input and no effect. *)
Theorem longestMatchingLabels_longest_common_prefix
    (labels segments : list string) :
  let matched := longestMatchingLabels labels segments in
  isPrefix matched labels
  /\ isPrefix matched segments
  /\ (forall q, isPrefix q labels -> isPrefix q segments -> isPrefix q matched)
  /\ (List.length matched = List.length labels
      \/ List.length matched = List.length segments
      \/ nth (List.length matched) labels EmptyString
         <> nth (List.length matched) segments EmptyString)
  /\ (labels = [] -> matched = [])
  /\ (forall l ls p ps,
         labels = l :: ls -> segments = p :: ps -> p <> l -> matched = []).
Proof.
  cbv zeta. rewrite longestMatchingLabels_eq.
  split; [apply commonPrefix_prefix_l|].
  split; [apply commonPrefix_prefix_r|].
  split; [intros q; apply commonPrefix_greatest|].
  split; [|split].
  - revert segments; induction labels as [|l ls IH]; intros segments.
    + now left.
    + destruct segments as [|p ps]; [right; now left|].
      cbn [commonPrefix]. destruct (String.eqb_spec p l) as [->|Hne].
      * cbn [List.length nth].
        destruct (IH ps) as [H|[H|H]]; [left|right; left|right; right]; auto.
      * right. right. cbn [List.length nth]. congruence.
  - intros ->. reflexivity.
  - intros l ls p ps -> -> Hne. cbn [commonPrefix].
    destruct (String.eqb_spec p l); [congruence|reflexivity].
Qed.

(* ===================================================================== *)
(** * BlockResolver                                                       *)
(* ===================================================================== *)

(** An address of one segment is its own split. *)
Lemma Split_bare (address : string) :
  hasDot address = false ->
  Split address = [address] /\ List.length (Split address) = 1.
Proof. intros H. now rewrite (Split_no_dot _ H). Qed.

Lemma length_zero_empty (s : string) :
  (String.length s =? 0) = true <-> s = EmptyString.
Proof. destruct s; simpl; split; congruence. Qed.

Lemma nonempty_length (s : string) :
  s <> EmptyString -> (String.length s =? 0) = false.
Proof. destruct s; [congruence|reflexivity]. Qed.

(** C4. On an address of one segment (a type name without a dot) the
    resolver returns the body's own blocks of that type, in the order of
    the document, whatever their labels: the blocks of the body filtered
    by type. *)
Theorem findLongestMatchingBlocks_bare_type (body : Body) (address : string) :
  address <> EmptyString ->
  hasDot address = false ->
  findLongestMatchingBlocks body address
  = Ok (filter (fun b => String.eqb address (Block_Type b)) (Blocks body))
  /\ (forall b,
        In b (filter (fun b => String.eqb address (Block_Type b)) (Blocks body))
        <-> In (BlockNode b) body /\ Block_Type b = address).
Proof.
  intros Hne Hdot. split.
  - rewrite findLongestMatchingBlocks_body, (nonempty_length _ Hne).
    cbv zeta. destruct (Split_bare _ Hdot) as [HS HL].
    rewrite HL, HS. cbn [Nat.eqb nth].
    now rewrite allMatchingBlocksByType_filter.
  - intros b. rewrite filter_In, In_Blocks.
    split; intros [H1 H2]; split; auto.
    + symmetry. now apply String.eqb_eq.
    + apply String.eqb_eq. now symmetry.
Qed.

(** The blocks of the two scenario documents that a bare type selects. *)
Lemma findLongestMatchingBlocks_bare_type_witness :
  "a" <> EmptyString /\ hasDot "a" = false
  /\ findLongestMatchingBlocks twoBlocksDocument "a" = Ok [firstA; secondA].
Proof.
  split; [discriminate|]. split; [reflexivity|].
  exact (proj1 (findLongestMatchingBlocks_bare_type twoBlocksDocument
                  "a" ltac:(discriminate) eq_refl)).
Defined.

(** C1. A block of the matching type with at least one label, whose
    labels are all matched and use up the remaining segments, is appended
    itself: the loop does not consult the nested search for it, and it is
    in the resolver's result. For [resource "aws_instance" "foo" { ami =
    "x" }] and "resource.aws_instance.foo.ami" the block matches and
    [findAttribute] gives its [ami], whose expression reads ["x"] and for
    which the filter and the sink write ["x"] and a newline. *)
Theorem full_label_match_appends_block :
  (forall nested a b rest matched,
      let matchedlabels := longestMatchingLabels (Block_Labels b) (skipn 1 a) in
      Block_Labels b <> [] ->
      List.length matchedlabels = List.length (Block_Labels b) ->
      List.length matchedlabels = List.length (skipn 1 a) ->
      matchBlocks nested a (b :: rest) matched
      = matchBlocks nested a rest (matched ++ [b]))
  /\ (forall body address b found,
      let a := Split address in
      let matchedlabels := longestMatchingLabels (Block_Labels b) (skipn 1 a) in
      In b (allMatchingBlocksByType body (nth 0 a EmptyString)) ->
      Block_Labels b <> [] ->
      List.length matchedlabels = List.length (Block_Labels b) ->
      List.length matchedlabels = List.length (skipn 1 a) ->
      findLongestMatchingBlocks body address = Ok found ->
      In b found)
  /\ findLongestMatchingBlocks resourceDocument "resource.aws_instance.foo"
     = Ok [resourceBlock]
  /\ findAttribute resourceDocument "resource.aws_instance.foo.ami"
     = Ok (Some (stringAttribute "ami" "x"), Some (Block_Body resourceBlock))
  /\ TrimSpace (Tokens_Bytes (expr (stringAttribute "ami" "x")))
     = (quote ++ "x" ++ quote)%string
  /\ (forall outFile,
        Filter (mkAttributeGet "resource.aws_instance.foo.ami")
               (mkFile resourceDocument) = Ok outFile ->
        Sink (mkAttributeGet "resource.aws_instance.foo.ami") outFile
        = Ok (quote ++ "x" ++ quote ++ newline)%string).
Proof.
  split; [|split; [|split; [|split; [|split]]]].
  - intros nested a b rest matched matchedlabels Hl H1 H2.
    rewrite length_skipn in H2.
    apply matchBlocks_full; fold matchedlabels; [lia|lia|assumption].
  - intros body address b found a matchedlabels Hin Hl H1 H2.
    rewrite length_skipn in H2.
    rewrite findLongestMatchingBlocks_body.
    destruct (String.length address =? 0); [discriminate|].
    cbv zeta. fold a.
    destruct (List.length a =? 1) eqn:E.
    { apply Nat.eqb_eq in E. destruct (Block_Labels b); [congruence|].
      simpl in H1. lia. }
    apply matchBlocks_full_In with (b := b);
      fold matchedlabels; [assumption|lia|lia|assumption].
  - reflexivity.
  - reflexivity.
  - reflexivity.
  - intros outFile [= <-]. reflexivity.
Qed.

(** The scenario of C1, through the general statement. *)
Lemma full_label_match_appends_block_witness :
  findLongestMatchingBlocks resourceDocument "resource.aws_instance.foo"
  = Ok [resourceBlock]
  /\ In resourceBlock [resourceBlock].
Proof.
  split; [reflexivity|].
  refine (proj1 (proj2 full_label_match_appends_block)
            resourceDocument "resource.aws_instance.foo" resourceBlock
            [resourceBlock] _ _ _ _ _).
  - left. reflexivity.
  - discriminate.
  - reflexivity.
  - reflexivity.
  - reflexivity.
Defined.

Lemma two_segments_nonempty (address : string) :
  2 <= List.length (Split address) -> (String.length address =? 0) = false.
Proof. destruct address; simpl; [lia|reflexivity]. Qed.

Lemma filter_type_middle (t : string) (pre post : Body) (b : Block) :
  allMatchingBlocksByType (pre ++ BlockNode b :: post) t
  = allMatchingBlocksByType pre t
      ++ (if String.eqb t (Block_Type b) then [b] else [])
      ++ allMatchingBlocksByType post t.
Proof.
  rewrite !allMatchingBlocksByType_filter, Blocks_app. cbn [Blocks].
  rewrite filter_app. cbn [filter].
  now destruct (String.eqb t (Block_Type b)).
Qed.

Lemma filter_type_app (t : string) (pre post : Body) :
  allMatchingBlocksByType (pre ++ post) t
  = allMatchingBlocksByType pre t ++ allMatchingBlocksByType post t.
Proof.
  rewrite !allMatchingBlocksByType_filter, Blocks_app. apply filter_app.
Qed.

(** C2. Labels come first: a block whose labels are matched only in part
    is passed over by the loop, which does not consult the nested search
    for it; the resolver's result is the one for the document without
    that block. A block labelled "x" "y" is not matched by an address that
    goes on with "x", "z", whatever its body holds. *)
Theorem partial_label_match_excludes_block :
  (forall nested a b rest matched,
      let matchedlabels := longestMatchingLabels (Block_Labels b) (skipn 1 a) in
      Block_Labels b <> [] ->
      List.length matchedlabels < List.length (Block_Labels b) ->
      matchBlocks nested a (b :: rest) matched
      = matchBlocks nested a rest matched)
  /\ (forall pre post b address,
      let a := Split address in
      let matchedlabels := longestMatchingLabels (Block_Labels b) (skipn 1 a) in
      2 <= List.length a ->
      Block_Labels b <> [] ->
      List.length matchedlabels < List.length (Block_Labels b) ->
      findLongestMatchingBlocks (pre ++ BlockNode b :: post) address
      = findLongestMatchingBlocks (pre ++ post) address)
  /\ (forall nestedBody,
      let document := [BlockNode (mkBlock "t" ["x"; "y"] nestedBody)] in
      findLongestMatchingBlocks document "t.x.z" = Ok []
      /\ findLongestMatchingBlocks document "t.x.z.attr" = Ok []
      /\ findAttribute document "t.x.z.attr" = Ok (None, None)).
Proof.
  split; [|split].
  - intros nested a b rest matched matchedlabels _ H.
    now apply matchBlocks_skip.
  - intros pre post b address a matchedlabels Ha _ H.
    rewrite !findLongestMatchingBlocks_body.
    rewrite (two_segments_nonempty _ Ha). cbv zeta. fold a.
    destruct (List.length a =? 1) eqn:E; [apply Nat.eqb_eq in E; lia|].
    rewrite filter_type_middle, filter_type_app, !matchBlocks_app.
    destruct (matchBlocks _ a (allMatchingBlocksByType pre _) []); [|reflexivity].
    destruct (String.eqb _ (Block_Type b)); [|reflexivity].
    cbn [app]. now rewrite matchBlocks_skip.
  - intros nestedBody document.
    assert (H1 : findLongestMatchingBlocks document "t.x.z" = Ok []).
    { rewrite findLongestMatchingBlocks_body. reflexivity. }
    assert (H2 : findLongestMatchingBlocks document "t.x.z.attr" = Ok []).
    { rewrite findLongestMatchingBlocks_body. reflexivity. }
    split; [exact H1|]. split; [exact H2|].
    unfold findAttribute. cbn -[findLongestMatchingBlocks].
    unfold dot. now rewrite H1.
Qed.

(** The block labelled "x" "y" in front of a block labelled "x" "z". *)
Lemma partial_label_match_excludes_block_witness :
  findLongestMatchingBlocks
    ([] ++ BlockNode (mkBlock "t" ["x"; "y"] [])
        :: [BlockNode (mkBlock "t" ["x"; "z"] [])]) "t.x.z"
  = findLongestMatchingBlocks ([] ++ [BlockNode (mkBlock "t" ["x"; "z"] [])]) "t.x.z".
Proof.
  refine (proj1 (proj2 partial_label_match_excludes_block)
            [] [BlockNode (mkBlock "t" ["x"; "z"] [])]
            (mkBlock "t" ["x"; "y"] []) "t.x.z" _ _ _).
  - simpl. lia.
  - discriminate.
  - simpl. lia.
Defined.

Lemma skipn_succ (k : nat) (a : list string) :
  skipn (1 + k) a = skipn k (skipn 1 a).
Proof. destruct a; [now destruct k|reflexivity]. Qed.

(** The nested address of a block searched further still has segments,
    and they are the remaining ones, unchanged. *)
Lemma nested_address_segments (address : string) (labels : list string) :
  let a := Split address in
  let matchedlabels := longestMatchingLabels labels (skipn 1 a) in
  2 <= List.length a ->
  List.length matchedlabels < List.length a - 1 \/ labels = [] ->
  Split (Join (skipn (1 + List.length matchedlabels) a))
  = skipn (List.length matchedlabels) (skipn 1 a).
Proof.
  intros a matchedlabels Ha H.
  assert (Hk : List.length matchedlabels < List.length a - 1).
  { destruct H as [H| ->]; [exact H|]. subst matchedlabels.
    rewrite longestMatchingLabels_eq. simpl. lia. }
  rewrite <- skipn_succ. apply Split_Join.
  - intros E. apply (f_equal (@List.length string)) in E.
    rewrite length_skipn in E. simpl in E. lia.
  - apply Forall_skipn, Split_segments.
Qed.

(** C3. A block that the label rule keeps, and whose matched labels
    leave segments over or which has no label, is searched further: the
    loop calls the nested search on the block's body with the number of
    matched labels, fails when it fails and appends what it finds
    otherwise, in order. In the resolver the nested address is the
    remaining segments after the matched labels, unchanged; a block
    without labels before the segments "child", "attr" is searched with
    exactly "child", "attr". *)
Theorem nested_search_recurses_into_block :
  (forall nested a b rest matched,
      let matchedlabels := longestMatchingLabels (Block_Labels b) (skipn 1 a) in
      ~ List.length matchedlabels < List.length (Block_Labels b) ->
      List.length matchedlabels < List.length (skipn 1 a) \/ Block_Labels b = [] ->
      matchBlocks nested a (b :: rest) matched
      = match nested (Block_Body b) (List.length matchedlabels) with
        | Err e => Err e
        | Ok nestedBlocks => matchBlocks nested a rest (matched ++ nestedBlocks)
        end)
  /\ (forall body address pre b post,
      let a := Split address in
      let remaining := skipn 1 a in
      let matchedlabels := longestMatchingLabels (Block_Labels b) remaining in
      let nestedAddr := Join (skipn (1 + List.length matchedlabels) a) in
      let search :=
        matchBlocks
          (fun bd k => findLongestMatchingBlocks bd (Join (skipn (1 + k) a))) a in
      2 <= List.length a ->
      allMatchingBlocksByType body (nth 0 a EmptyString) = pre ++ b :: post ->
      ~ List.length matchedlabels < List.length (Block_Labels b) ->
      List.length matchedlabels < List.length remaining \/ Block_Labels b = [] ->
      Split nestedAddr = skipn (List.length matchedlabels) remaining
      /\ findLongestMatchingBlocks body address
         = match search pre [] with
           | Err e => Err e
           | Ok found =>
               match findLongestMatchingBlocks (Block_Body b) nestedAddr with
               | Err e => Err e
               | Ok nestedBlocks => search post (found ++ nestedBlocks)
               end
           end)
  /\ (forall nestedBody,
      Split "child.attr" = ["child"; "attr"]
      /\ findLongestMatchingBlocks [BlockNode (mkBlock "t" [] nestedBody)]
           "t.child.attr"
         = findLongestMatchingBlocks nestedBody "child.attr").
Proof.
  split; [|split].
  - intros nested a b rest matched matchedlabels H1 H2.
    rewrite length_skipn in H2. now apply matchBlocks_nested.
  - intros body address pre b post a remaining matchedlabels nestedAddr search
      Ha Hblocks H1 H2.
    unfold remaining in H2. rewrite length_skipn in H2.
    split; [now apply nested_address_segments|].
    rewrite findLongestMatchingBlocks_body.
    rewrite (two_segments_nonempty _ Ha). cbv zeta. fold a.
    destruct (List.length a =? 1) eqn:E; [apply Nat.eqb_eq in E; lia|].
    rewrite Hblocks. fold search. unfold search at 1.
    rewrite matchBlocks_app. fold search.
    destruct (search pre []) as [found|e]; [|reflexivity].
    unfold search at 1. rewrite matchBlocks_nested by assumption.
    reflexivity.
  - intros nestedBody. split; [reflexivity|].
    rewrite findLongestMatchingBlocks_body.
    change (match findLongestMatchingBlocks nestedBody "child.attr" with
            | Err e => Err e
            | Ok nestedBlocks => Ok ([] ++ nestedBlocks)
            end = findLongestMatchingBlocks nestedBody "child.attr").
    now destruct (findLongestMatchingBlocks nestedBody "child.attr").
Qed.

(** A block without labels that holds a nested block. *)
Lemma nested_search_recurses_into_block_witness :
  findLongestMatchingBlocks
    [BlockNode (mkBlock "t" [] [BlockNode (mkBlock "child" [] [])])] "t.child"
  = Ok [mkBlock "child" [] []].
Proof.
  refine (eq_trans
            (proj2 (proj1 (proj2 nested_search_recurses_into_block)
               [BlockNode (mkBlock "t" [] [BlockNode (mkBlock "child" [] [])])]
               "t.child" [] (mkBlock "t" [] [BlockNode (mkBlock "child" [] [])])
               [] _ _ _ _)) _).
  - simpl. lia.
  - reflexivity.
  - simpl. lia.
  - right. reflexivity.
  - reflexivity.
Defined.

(* ===================================================================== *)
(** * AttributeResolver                                                   *)
(* ===================================================================== *)

Lemma GetAttribute_ignores_block (pre post : Body) (b : Block) (n : string) :
  GetAttribute (pre ++ BlockNode b :: post) n = GetAttribute (pre ++ post) n.
Proof.
  induction pre as [|x pre IH]; [reflexivity|].
  destruct x as [a|b']; cbn [app GetAttribute]; [|exact IH].
  now destruct (String.eqb (name a) n).
Qed.

(** C5. On a non-empty address without a dot, [findAttribute] returns
    the attribute of that name among the body's own items, with the body,
    and no error; when there is none it returns no attribute, with the
    body. The blocks of the body play no part: the attribute found is an
    item of the body itself, and taking a block away changes nothing. *)
Theorem findAttribute_single_segment (body : Body) (address : string) :
  address <> EmptyString ->
  hasDot address = false ->
  findAttribute body address = Ok (GetAttribute body address, Some body)
  /\ (GetAttribute body address = None ->
      findAttribute body address = Ok (None, Some body))
  /\ (forall attr,
        GetAttribute body address = Some attr ->
        In (AttrNode attr) body /\ name attr = address)
  /\ (forall pre post b,
        body = pre ++ BlockNode b :: post ->
        GetAttribute body address = GetAttribute (pre ++ post) address).
Proof.
  intros Hne Hdot.
  assert (H : findAttribute body address
              = Ok (GetAttribute body address, Some body)).
  { unfold findAttribute. rewrite (nonempty_length _ Hne). cbv zeta.
    destruct (Split_bare _ Hdot) as [HS HL]. now rewrite HL, HS. }
  split; [exact H|]. split; [|split].
  - intros E. now rewrite H, E.
  - intros attr. apply GetAttribute_In.
  - intros pre post b ->. apply GetAttribute_ignores_block.
Qed.

(** The attribute [b] of a document of one attribute and one block. *)
Lemma findAttribute_single_segment_witness :
  findAttribute [AttrNode (stringAttribute "b" "1"); BlockNode firstA] "b"
  = Ok (Some (stringAttribute "b" "1"),
        Some [AttrNode (stringAttribute "b" "1"); BlockNode firstA]).
Proof.
  exact (proj1 (findAttribute_single_segment
                  [AttrNode (stringAttribute "b" "1"); BlockNode firstA]
                  "b" ltac:(discriminate) eq_refl)).
Defined.

Lemma firstn_last (A : Type) (l : list A) (x : A) :
  firstn (List.length (l ++ [x]) - 1) (l ++ [x]) = l.
Proof.
  rewrite length_app. cbn [List.length].
  replace (List.length l + 1 - 1) with (List.length l + 0) by lia.
  rewrite firstn_app_2. cbn [firstn]. apply app_nil_r.
Qed.

Lemma nth_last (l : list string) (x : string) :
  nth (List.length (l ++ [x]) - 1) (l ++ [x]) EmptyString = x.
Proof.
  rewrite length_app. cbn [List.length].
  replace (List.length l + 1 - 1) with (List.length l) by lia.
  apply nth_middle.
Qed.

(** The body of [findAttribute] on an address of several segments. *)
Lemma findAttribute_dotted_body (body : Body) (address : string)
    (segments : list string) (attrName : string) :
  segments <> [] ->
  Split address = segments ++ [attrName] ->
  findAttribute body address
  = match findLongestMatchingBlocks body (Join segments) with
    | Err e => Err e
    | Ok blocks => Ok (firstAttribute blocks attrName)
    end.
Proof.
  intros Hne HS. unfold findAttribute.
  assert (Ha : 2 <= List.length (Split address)).
  { rewrite HS, length_app. destruct segments; [congruence|simpl; lia]. }
  rewrite (two_segments_nonempty _ Ha). cbv zeta.
  destruct (List.length (Split address) =? 1) eqn:E;
    [apply Nat.eqb_eq in E; lia|].
  rewrite HS, firstn_last, nth_last.
  destruct (findLongestMatchingBlocks body (Join segments)) as [blocks|e];
    [|reflexivity].
  now destruct blocks.
Qed.

(** The loop of [findAttribute] returns the attribute of the first block
    that has one, with that block's body. *)
Lemma firstAttribute_first (blocks : list Block) (attrName : string) :
  (exists pre b post attr,
      blocks = pre ++ b :: post
      /\ Forall (fun b' => GetAttribute (Block_Body b') attrName = None) pre
      /\ GetAttribute (Block_Body b) attrName = Some attr
      /\ firstAttribute blocks attrName = (Some attr, Some (Block_Body b)))
  \/ (Forall (fun b' => GetAttribute (Block_Body b') attrName = None) blocks
      /\ firstAttribute blocks attrName = (None, None)).
Proof.
  induction blocks as [|b blocks IH]; [right; split; [constructor|reflexivity]|].
  cbn [firstAttribute].
  destruct (GetAttribute (Block_Body b) attrName) as [attr|] eqn:E.
  - left. exists [], b, blocks, attr. repeat split; auto.
  - destruct IH as [(pre & b' & post & attr & -> & Hpre & Hb' & Hf)|[Hall Hf]].
    + left. exists (b :: pre), b', post, attr. repeat split; auto.
    + right. split; [constructor; assumption|assumption].
Qed.

(** C6. An address with a dot splits into segments before a last one.
    On such an address [findAttribute] takes the last
    segment for the attribute name and the ones before for the block
    address, resolves the blocks, and returns the attribute of the first
    matched block that has one of that name, with that block's body; it
    returns no attribute, no body and no error when no block is matched
    or none has the attribute. In [a { b = "1" } a { b = "2" }] the
    address "a.b" matches both blocks and gives the first one's [b]. *)
Theorem findAttribute_first_matching_block :
  (forall address,
      hasDot address = true ->
      exists segments attrName,
        segments <> [] /\ Split address = segments ++ [attrName])
  /\ (forall body address segments attrName,
      segments <> [] ->
      Split address = segments ++ [attrName] ->
      findAttribute body address
      = match findLongestMatchingBlocks body (Join segments) with
        | Err e => Err e
        | Ok blocks => Ok (firstAttribute blocks attrName)
        end
      /\ (forall blocks,
            findLongestMatchingBlocks body (Join segments) = Ok blocks ->
            (exists pre b post attr,
                blocks = pre ++ b :: post
                /\ Forall (fun b' => GetAttribute (Block_Body b') attrName = None) pre
                /\ GetAttribute (Block_Body b) attrName = Some attr
                /\ findAttribute body address
                   = Ok (Some attr, Some (Block_Body b)))
            \/ (Forall (fun b' => GetAttribute (Block_Body b') attrName = None)
                  blocks
                /\ findAttribute body address = Ok (None, None))))
  /\ findLongestMatchingBlocks twoBlocksDocument "a" = Ok [firstA; secondA]
  /\ findAttribute twoBlocksDocument "a.b"
     = Ok (Some (stringAttribute "b" "1"), Some (Block_Body firstA)).
Proof.
  split; [|split; [|split; reflexivity]].
  { intros address Hdot. apply Split_with_dot in Hdot.
    destruct (exists_last (Split_nonempty address)) as (segments & attrName & E).
    exists segments, attrName. split; [|exact E].
    intros ->. rewrite E in Hdot. simpl in Hdot. lia. }
  intros body address segments attrName Hne HS.
  pose proof (findAttribute_dotted_body body address _ _ Hne HS) as H.
  split; [exact H|].
  intros blocks Hb. rewrite H, Hb.
  destruct (firstAttribute_first blocks attrName)
    as [(pre & b & post & attr & E & Hpre & Hattr & Hf)|[Hall Hf]].
  - left. exists pre, b, post, attr. rewrite Hf. auto.
  - right. rewrite Hf. auto.
Qed.

(** The scenario of C6, through the general statement. *)
Lemma findAttribute_first_matching_block_witness :
  findAttribute twoBlocksDocument "a.b"
  = match findLongestMatchingBlocks twoBlocksDocument (Join ["a"]) with
    | Err e => Err e
    | Ok blocks => Ok (firstAttribute blocks "b")
    end.
Proof.
  refine (proj1 (proj1 (proj2 findAttribute_first_matching_block)
                   twoBlocksDocument "a.b" ["a"] "b" _ _)).
  - discriminate.
  - reflexivity.
Defined.

(* ===================================================================== *)
(** * The empty address                                                   *)
(* ===================================================================== *)

(** A failed search came to an empty address, and that is its error. *)
Lemma findLongestMatchingBlocks_Err_inv (n : nat) :
  forall body address e,
    String.length address < n ->
    findLongestMatchingBlocks body address = Err e ->
    e = errAddressEmpty /\ emptySubAddress body address.
Proof.
  induction n as [|n IH]; intros body address e Hn; [lia|].
  rewrite findLongestMatchingBlocks_body.
  destruct (String.length address =? 0) eqn:E0.
  { apply length_zero_empty in E0. subst address.
    intros [= <-]. split; [reflexivity|constructor]. }
  cbv zeta.
  destruct (List.length (Split address) =? 1) eqn:E1; [discriminate|].
  intros H. apply matchBlocks_Err_inv in H.
  destruct H as (b & Hin & H1 & H2 & Hnested).
  assert (Hne : address <> EmptyString).
  { intros ->. discriminate. }
  pose proof (nested_address_shorter address
                (List.length (longestMatchingLabels (Block_Labels b)
                                (skipn 1 (Split address)))) Hne) as Hlt.
  apply IH in Hnested; [|lia].
  destruct Hnested as [-> Hsub]. split; [reflexivity|].
  apply emptySubAddress_nested with (b := b); try assumption.
  apply Nat.eqb_neq in E1. pose proof (Split_nonempty address).
  destruct (Split address) as [|? [|? ?]]; simpl in *; congruence || lia.
Qed.

Lemma findLongestMatchingBlocks_Err_intro (body : Body) (address : string) :
  emptySubAddress body address ->
  findLongestMatchingBlocks body address = Err errAddressEmpty.
Proof.
  induction 1 as [body|body address b a matchedlabels Ha Hin H1 H2 Hsub IH].
  - now rewrite findLongestMatchingBlocks_body.
  - destruct (findLongestMatchingBlocks body address) as [found|e] eqn:E.
    + exfalso. revert E. rewrite findLongestMatchingBlocks_body.
      rewrite (two_segments_nonempty _ Ha). cbv zeta. fold a.
      destruct (List.length a =? 1) eqn:E1; [apply Nat.eqb_eq in E1; lia|].
      destruct (matchBlocks_Err_intro
                  (fun bd k => findLongestMatchingBlocks bd (Join (skipn (1 + k) a)))
                  a (allMatchingBlocksByType body (nth 0 a EmptyString)) []
                  b errAddressEmpty Hin H1 H2 IH) as [e' He'].
      rewrite He'. discriminate.
    + apply (findLongestMatchingBlocks_Err_inv (S (String.length address))) in E;
        [|lia].
      now destruct E as [-> _].
Qed.

(** The error of the resolver, exactly. *)
Lemma findLongestMatchingBlocks_Err_iff (body : Body) (address : string)
    (e : error) :
  findLongestMatchingBlocks body address = Err e
  <-> e = errAddressEmpty /\ emptySubAddress body address.
Proof.
  split.
  - apply (findLongestMatchingBlocks_Err_inv (S (String.length address))). lia.
  - intros [-> H]. now apply findLongestMatchingBlocks_Err_intro.
Qed.

(** C7. The empty address is the one error of address resolution.
    [findAttribute] and the resolver fail on the empty address whatever the
    document is. The resolver fails exactly when its search comes to an
    empty address, and [findAttribute] exactly when its address is empty
    or the search for its block address does; the error is always that of
    the empty address. A block without labels whose nested address is
    empty makes the whole resolution fail, wherever it stands among the
    candidates: so does the address "t." on a block [t] without labels,
    and "t..attr" in [findAttribute]. *)
Theorem empty_address_is_the_error :
  (forall body,
      findAttribute body EmptyString = Err errAddressEmpty
      /\ findLongestMatchingBlocks body EmptyString = Err errAddressEmpty)
  /\ (forall body address e,
        findLongestMatchingBlocks body address = Err e
        <-> e = errAddressEmpty /\ emptySubAddress body address)
  /\ (forall body address e,
        findAttribute body address = Err e
        <-> e = errAddressEmpty
            /\ (address = EmptyString
                \/ (2 <= List.length (Split address)
                    /\ emptySubAddress body
                         (Join (firstn (List.length (Split address) - 1)
                                  (Split address))))))
  /\ (forall body address b,
        let a := Split address in
        2 <= List.length a ->
        In b (allMatchingBlocksByType body (nth 0 a EmptyString)) ->
        Block_Labels b = [] ->
        Join (skipn 1 a) = EmptyString ->
        findLongestMatchingBlocks body address = Err errAddressEmpty)
  /\ (forall nestedBody before after,
        let document := before ++ BlockNode (mkBlock "t" [] nestedBody) :: after in
        findLongestMatchingBlocks document "t." = Err errAddressEmpty
        /\ findAttribute document "t..attr" = Err errAddressEmpty).
Proof.
  assert (Hzero : forall body address b,
             let a := Split address in
             2 <= List.length a ->
             In b (allMatchingBlocksByType body (nth 0 a EmptyString)) ->
             Block_Labels b = [] ->
             Join (skipn 1 a) = EmptyString ->
             findLongestMatchingBlocks body address = Err errAddressEmpty).
  { intros body address b a Ha Hin Hl HJ.
    apply findLongestMatchingBlocks_Err_intro.
    apply emptySubAddress_nested with (b := b); fold a; try assumption.
    - rewrite Hl, longestMatchingLabels_eq. simpl. lia.
    - now right.
    - rewrite Hl, longestMatchingLabels_eq. cbn [commonPrefix List.length Nat.add].
      rewrite HJ. constructor. }
  split; [|split; [|split; [|split]]].
  - intros body. split; [reflexivity|].
    now rewrite findLongestMatchingBlocks_body.
  - apply findLongestMatchingBlocks_Err_iff.
  - intros body address e. unfold findAttribute.
    destruct (String.length address =? 0) eqn:E0.
    { apply length_zero_empty in E0. subst address. split.
      - intros [= <-]. auto.
      - intros [-> _]. reflexivity. }
    cbv zeta.
    assert (Hne : address <> EmptyString) by (intros ->; discriminate).
    destruct (List.length (Split address) =? 1) eqn:E1.
    { apply Nat.eqb_eq in E1. split; [discriminate|].
      intros [_ [H|[H _]]]; [congruence|lia]. }
    apply Nat.eqb_neq in E1.
    assert (Ha : 2 <= List.length (Split address)).
    { pose proof (Split_nonempty address).
      destruct (Split address) as [|? [|? ?]]; simpl in *; congruence || lia. }
    destruct (findLongestMatchingBlocks body _) as [blocks|e'] eqn:E.
    + split.
      * destruct (List.length blocks =? 0); discriminate.
      * intros [_ [H|[_ H]]]; [congruence|].
        apply findLongestMatchingBlocks_Err_intro in H. congruence.
    + apply findLongestMatchingBlocks_Err_iff in E. destruct E as [-> Hsub].
      split.
      * intros [= <-]. auto.
      * intros [-> _]. reflexivity.
  - exact Hzero.
  - intros nestedBody before after document.
    assert (H : findLongestMatchingBlocks document "t." = Err errAddressEmpty).
    { apply Hzero with (b := mkBlock "t" [] nestedBody);
        [simpl; lia| |reflexivity|reflexivity].
      unfold document. rewrite filter_type_middle.
      apply in_or_app. right. now left. }
    split; [exact H|].
    unfold findAttribute. cbn -[findLongestMatchingBlocks]. unfold dot.
    now rewrite H.
Qed.

(** A block without labels under the address "t.". *)
Lemma empty_address_is_the_error_witness :
  findLongestMatchingBlocks [BlockNode (mkBlock "t" [] [])] "t."
  = Err errAddressEmpty.
Proof.
  refine (proj1 (proj2 (proj2 (proj2 empty_address_is_the_error)))
            [BlockNode (mkBlock "t" [] [])] "t." (mkBlock "t" [] []) _ _ _ _).
  - simpl. lia.
  - left. reflexivity.
  - reflexivity.
  - reflexivity.
Defined.

(* ===================================================================== *)
(** * ValueExtractor                                                      *)
(* ===================================================================== *)

Lemma eqb_true (x y : TokenType) : hclsyntax.eqb x y = true <-> x = y.
Proof.
  unfold hclsyntax.eqb. destruct (TokenType_eq_dec x y); split; congruence.
Qed.

Lemma eqb_false (x y : TokenType) : hclsyntax.eqb x y = false <-> x <> y.
Proof.
  unfold hclsyntax.eqb. destruct (TokenType_eq_dec x y); split; congruence.
Qed.

Lemma indexOfTokenEqual_none (ts : Tokens) :
  Forall notEqual ts -> indexOfTokenEqual ts = List.length ts.
Proof.
  induction 1 as [|t ts Ht _ IH]; [reflexivity|].
  cbn [indexOfTokenEqual List.length].
  apply eqb_false in Ht. now rewrite Ht, IH.
Qed.

Lemma indexOfTokenEqual_first (before after : Tokens) (equals : Token) :
  Forall notEqual before -> Type_ equals = TokenEqual ->
  indexOfTokenEqual (before ++ equals :: after) = List.length before.
Proof.
  intros Hb He. induction Hb as [|t ts Ht _ IH]; cbn [app indexOfTokenEqual List.length].
  - apply eqb_true in He. now rewrite He.
  - apply eqb_false in Ht. now rewrite Ht, IH.
Qed.

(** The tokens either hold no [TokenEqual] or split at the first one. *)
Lemma first_TokenEqual (ts : Tokens) :
  Forall notEqual ts
  \/ exists before equals after,
       ts = before ++ equals :: after
       /\ Forall notEqual before /\ Type_ equals = TokenEqual.
Proof.
  induction ts as [|t ts IH]; [left; constructor|].
  destruct (TokenType_eq_dec (Type_ t) TokenEqual) as [E|E].
  - right. exists [], t, ts. repeat split; [constructor|assumption].
  - destruct IH as [IH|(before & equals & after & -> & Hb & He)].
    + left. now constructor.
    + right. exists (t :: before), equals, after. repeat split; [now constructor|assumption].
Qed.

(** The tokens either hold no [TokenComment] or split at the first one. *)
Lemma first_TokenComment (ts : Tokens) :
  exists value rest,
    ts = value ++ rest
    /\ Forall notComment value
    /\ (rest = [] \/ exists c more, rest = c :: more /\ Type_ c = TokenComment).
Proof.
  induction ts as [|t ts IH]; [exists [], []; repeat split; [constructor|now left]|].
  destruct (TokenType_eq_dec (Type_ t) TokenComment) as [E|E].
  - exists [], (t :: ts). repeat split; [constructor|].
    right. now exists t, ts.
  - destruct IH as (value & rest & -> & Hv & Hr).
    exists (t :: value), rest. repeat split; [now constructor|assumption].
Qed.

Lemma untilTokenComment_value (value rest acc : Tokens) :
  Forall notComment value ->
  rest = [] \/ (exists c more, rest = c :: more /\ Type_ c = TokenComment) ->
  untilTokenComment (value ++ rest) acc = acc ++ value.
Proof.
  intros Hv Hr. revert acc.
  induction Hv as [|t ts Ht _ IH]; intros acc; cbn [app].
  - rewrite app_nil_r. destruct Hr as [->|(c & more & -> & Hc)]; [reflexivity|].
    cbn [untilTokenComment]. apply eqb_true in Hc. now rewrite Hc.
  - cbn [untilTokenComment]. apply eqb_false in Ht. rewrite Ht, IH.
    now rewrite <- app_assoc.
Qed.

Lemma skipn_past (before after : Tokens) (equals : Token) :
  skipn (List.length before + 1) (before ++ equals :: after) = after.
Proof.
  induction before as [|t before IH]; [reflexivity|exact IH].
Qed.

(** The body of [getAttributeValueAsString] on tokens that split at the
    first [TokenEqual] and then at the first [TokenComment]. *)
Lemma getAttributeValueAsString_value (attr : Attribute)
    (before value rest : Tokens) (equals : Token) :
  Expr_BuildTokens attr = before ++ equals :: value ++ rest ->
  Forall notEqual before -> Type_ equals = TokenEqual ->
  Forall notComment value ->
  rest = [] \/ (exists c more, rest = c :: more /\ Type_ c = TokenComment) ->
  getAttributeValueAsString attr = Ok (TrimSpace (Tokens_Bytes value)).
Proof.
  intros HE Hb He Hv Hr. unfold getAttributeValueAsString. cbv zeta.
  rewrite HE, (indexOfTokenEqual_first _ _ _ Hb He), skipn_past.
  rewrite length_app. cbn [List.length].
  destruct (List.length before =? List.length before + S _) eqn:E;
    [apply Nat.eqb_eq in E; lia|].
  now rewrite (untilTokenComment_value _ _ _ Hv Hr).
Qed.

(** C9, amended. [getAttributeValueAsString] reads the tokens of the
    attribute's expression, [attr.Expr().BuildTokens(nil)], from the
    start. When none is a [TokenEqual] it fails with the error that names
    the attribute. Otherwise the tokens split at the first [TokenEqual],
    what follows splits at the first [TokenComment] if there is one, and
    the value is the bytes of the tokens in between, white space trimmed
    at both ends; every token sequence is of one of these two kinds, and a
    value has no white space left at its start or its end. For the
    attribute that the filter builds from [name = "value" # comment],
    whose expression is all the tokens of the attribute found, the value
    is ["value"] with its quotes and without the comment. *)
Theorem getAttributeValueAsString_raw_value :
  (forall attr,
      Forall notEqual (Expr_BuildTokens attr) ->
      getAttributeValueAsString attr = Err (errTokenEqual attr))
  /\ (forall attr before equals value rest,
        Expr_BuildTokens attr = before ++ equals :: value ++ rest ->
        Forall notEqual before -> Type_ equals = TokenEqual ->
        Forall notComment value ->
        rest = [] \/ (exists c more, rest = c :: more /\ Type_ c = TokenComment) ->
        getAttributeValueAsString attr = Ok (TrimSpace (Tokens_Bytes value)))
  /\ (forall attr,
        Forall notEqual (Expr_BuildTokens attr)
        \/ exists before equals value rest,
             Expr_BuildTokens attr = before ++ equals :: value ++ rest
             /\ Forall notEqual before /\ Type_ equals = TokenEqual
             /\ Forall notComment value
             /\ (rest = []
                 \/ exists c more, rest = c :: more /\ Type_ c = TokenComment))
  /\ (forall attr value,
        getAttributeValueAsString attr = Ok value ->
        spaceLen (fun w => w) value = 0
        /\ spaceLen revString (revString value) = 0)
  /\ Attribute_BuildTokens commentedAttribute
     = [identToken "name"; equalToken] ++ quoted "value" ++ [commentToken]
  /\ Filter (mkAttributeGet "name") (mkFile [AttrNode commentedAttribute])
     = Ok (mkFile [AttrNode (newAttribute "name"
                               (Attribute_BuildTokens commentedAttribute))])
  /\ getAttributeValueAsString
       (newAttribute "name" (Attribute_BuildTokens commentedAttribute))
     = Ok (quote ++ "value" ++ quote)%string.
Proof.
  split; [|split; [|split; [|split; [|split; [|split]]]]].
  - intros attr H. unfold getAttributeValueAsString. cbv zeta.
    now rewrite (indexOfTokenEqual_none _ H), Nat.eqb_refl.
  - intros attr before equals value rest.
    apply getAttributeValueAsString_value.
  - intros attr.
    destruct (first_TokenEqual (Expr_BuildTokens attr))
      as [H|(before & equals & after & E & Hb & He)]; [now left|].
    right. destruct (first_TokenComment after) as (value & rest & -> & Hv & Hr).
    now exists before, equals, value, rest.
  - intros attr value. unfold getAttributeValueAsString. cbv zeta.
    destruct (_ =? _); [discriminate|].
    intros [= <-]. apply TrimSpace_trimmed.
  - reflexivity.
  - reflexivity.
  - reflexivity.
Qed.

(** The attribute that the filter builds from [name = "value" # comment]. *)
Lemma getAttributeValueAsString_raw_value_witness :
  getAttributeValueAsString
    (newAttribute "name" (Attribute_BuildTokens commentedAttribute))
  = Ok (TrimSpace (Tokens_Bytes (quoted "value"))).
Proof.
  refine (proj1 (proj2 getAttributeValueAsString_raw_value)
            (newAttribute "name" (Attribute_BuildTokens commentedAttribute))
            [identToken "name"] equalToken (quoted "value") [commentToken]
            _ _ _ _ _).
  - reflexivity.
  - repeat constructor. discriminate.
  - reflexivity.
  - repeat constructor; discriminate.
  - right. exists commentToken, []. split; reflexivity.
Defined.

(** C9 as first stated, for the attribute written [name = "value" #
    comment] itself, does not hold. The tokens of that attribute hold the
    equals sign, but the tokens of its expression, which are the ones
    read, are those of ["value"] alone: the function fails on it, and the
    value comes out only once the filter has made all the attribute's
    tokens the expression of a new attribute. *)
Lemma getAttributeValueAsString_parsed_attribute_fails :
  In equalToken (Attribute_BuildTokens commentedAttribute)
  /\ Expr_BuildTokens commentedAttribute = quoted "value"
  /\ getAttributeValueAsString commentedAttribute
     = Err (errTokenEqual commentedAttribute)
  /\ getAttributeValueAsString commentedAttribute
     <> Ok (quote ++ "value" ++ quote)%string.
Proof.
  split; [right; left; reflexivity|].
  split; [reflexivity|].
  split; [reflexivity|discriminate].
Qed.

(* ===================================================================== *)
(** * The filter and the sink                                             *)
(* ===================================================================== *)

Lemma indexOfTokenEqual_found (ts : Tokens) (t : Token) :
  In t ts -> Type_ t = TokenEqual -> indexOfTokenEqual ts < List.length ts.
Proof.
  intros Hin Ht. induction ts as [|x ts IH]; [destruct Hin|].
  cbn [indexOfTokenEqual List.length].
  destruct (hclsyntax.eqb (Type_ x) TokenEqual) eqn:E; [lia|].
  destruct Hin as [->|Hin].
  - apply eqb_false in E. congruence.
  - specialize (IH Hin). lia.
Qed.

(** The tokens of a whole attribute hold its equals sign, so that their
    value is always found. *)
Lemma getAttributeValueAsString_built (n : string) (attr : Attribute) :
  exists value,
    getAttributeValueAsString (newAttribute n (Attribute_BuildTokens attr))
    = Ok value.
Proof.
  unfold getAttributeValueAsString. cbv zeta.
  cbn [Expr_BuildTokens newAttribute expr].
  pose proof (indexOfTokenEqual_found (Attribute_BuildTokens attr) equalToken)
    as H.
  destruct (_ =? _) eqn:E; [|eexists; reflexivity].
  apply Nat.eqb_eq in E. exfalso.
  assert (indexOfTokenEqual (Attribute_BuildTokens attr)
          < List.length (Attribute_BuildTokens attr)); [|lia].
  apply H; [|reflexivity].
  unfold Attribute_BuildTokens. apply in_or_app. right. right. now left.
Qed.

(** C10. When [findAttribute] finds nothing the filter returns the new
    empty file, and no error; when it finds an attribute the filter
    returns a new file whose body is one attribute, named by the whole
    address, whose expression is the tokens of the attribute found. The
    sink looks the attribute up under the whole address: it writes
    nothing, and reports no error, when there is none, and the value and
    a newline when there is one. So the sink on the filter's file writes
    nothing when nothing was found, and a value and a newline otherwise. *)
Theorem filter_and_sink :
  (forall f inFile owner,
      findAttribute (File_Body inFile) (address f) = Ok (None, owner) ->
      Filter f inFile = Ok NewEmptyFile /\ File_Body NewEmptyFile = [])
  /\ (forall f inFile attr owner,
        findAttribute (File_Body inFile) (address f) = Ok (Some attr, owner) ->
        exists out,
          Filter f inFile = Ok (mkFile [AttrNode out])
          /\ name out = address f
          /\ expr out = Attribute_BuildTokens attr)
  /\ (forall f file,
        GetAttribute (File_Body file) (address f) = None ->
        Sink f file = Ok EmptyString)
  /\ (forall f file attr value,
        GetAttribute (File_Body file) (address f) = Some attr ->
        getAttributeValueAsString attr = Ok value ->
        Sink f file = Ok (value ++ newline)%string)
  /\ (forall f inFile outFile,
        Filter f inFile = Ok outFile ->
        (forall owner,
            findAttribute (File_Body inFile) (address f) = Ok (None, owner) ->
            Sink f outFile = Ok EmptyString)
        /\ (forall attr owner,
              findAttribute (File_Body inFile) (address f)
              = Ok (Some attr, owner) ->
              exists out value,
                GetAttribute (File_Body outFile) (address f) = Some out
                /\ expr out = Attribute_BuildTokens attr
                /\ getAttributeValueAsString out = Ok value
                /\ Sink f outFile = Ok (value ++ newline)%string)).
Proof.
  split; [|split; [|split; [|split]]].
  - intros f inFile owner H. unfold Filter. now rewrite H.
  - intros f inFile attr owner H. unfold Filter. rewrite H.
    exists (newAttribute (address f) (Attribute_BuildTokens attr)).
    repeat split.
  - intros f file H. unfold Sink. cbv zeta. now rewrite H.
  - intros f file attr value H Hv. unfold Sink. cbv zeta. now rewrite H, Hv.
  - intros f inFile outFile HF. split.
    + intros owner H. unfold Filter in HF. rewrite H in HF.
      injection HF as <-. reflexivity.
    + intros attr owner H. unfold Filter in HF. rewrite H in HF.
      injection HF as <-.
      destruct (getAttributeValueAsString_built (address f) attr) as [value Hv].
      exists (newAttribute (address f) (Attribute_BuildTokens attr)), value.
      assert (HG : GetAttribute
                     [AttrNode (newAttribute (address f) (Attribute_BuildTokens attr))]
                     (address f)
                   = Some (newAttribute (address f) (Attribute_BuildTokens attr))).
      { cbn [GetAttribute newAttribute name]. now rewrite String.eqb_refl. }
      repeat split; [exact HG|exact Hv|].
      unfold Sink. cbv zeta.
      change (GetAttribute _ (address f))
        with (GetAttribute
                [AttrNode (newAttribute (address f) (Attribute_BuildTokens attr))]
                (address f)).
      now rewrite HG, Hv.
Qed.

(** The filter and the sink on [resource "aws_instance" "foo" { ami = "x" }]. *)
Lemma filter_and_sink_witness :
  exists out,
    Filter (mkAttributeGet "resource.aws_instance.foo.ami")
      (mkFile resourceDocument) = Ok (mkFile [AttrNode out])
    /\ name out = "resource.aws_instance.foo.ami"
    /\ expr out = Attribute_BuildTokens (stringAttribute "ami" "x").
Proof.
  refine (proj1 (proj2 filter_and_sink)
            (mkAttributeGet "resource.aws_instance.foo.ami")
            (mkFile resourceDocument) (stringAttribute "ami" "x")
            (Some (Block_Body resourceBlock)) _).
  reflexivity.
Defined.

(* ===================================================================== *)
(** * Further properties of the resolver                                  *)
(* ===================================================================== *)

Lemma commonPrefix_refl (l more : list string) :
  commonPrefix l (l ++ more) = l.
Proof.
  induction l as [|x l IH]; [now destruct more|].
  cbn [app commonPrefix]. now rewrite String.eqb_refl, IH.
Qed.

(** The labels are matched in full exactly when the segments start with
    them. *)
Lemma matched_in_full_iff (labels segments : list string) :
  List.length (longestMatchingLabels labels segments) = List.length labels
  <-> isPrefix labels segments.
Proof.
  rewrite longestMatchingLabels_eq. split.
  - intros H.
    rewrite <- (isPrefix_full _ _ (commonPrefix_prefix_l labels segments) H).
    apply commonPrefix_prefix_r.
  - intros [more ->]. now rewrite commonPrefix_refl.
Qed.

(** A block that the loop appends itself has the remaining segments for
    labels. *)
Lemma full_match_labels (a labels : list string) :
  ~ List.length (longestMatchingLabels labels (skipn 1 a)) < List.length labels ->
  ~ List.length (longestMatchingLabels labels (skipn 1 a)) < List.length a - 1 ->
  labels = skipn 1 a.
Proof.
  rewrite longestMatchingLabels_eq. intros H1 H2.
  destruct (commonPrefix_length_le labels (skipn 1 a)) as [L1 L2].
  rewrite length_skipn in L2.
  rewrite <- (isPrefix_full _ _ (commonPrefix_prefix_l labels (skipn 1 a)))
    by lia.
  apply isPrefix_full; [apply commonPrefix_prefix_r|].
  rewrite length_skipn. lia.
Qed.

(** What holds of the blocks appended and of the blocks found by the
    nested searches holds of the blocks the loop returns. *)
Lemma matchBlocks_Forall (P : Block -> Prop)
    (nested : Body -> nat -> Result (list Block)) (a : list string) :
  forall bs matched found,
    (forall b, In b bs -> Block_Labels b <> [] ->
               Block_Labels b = skipn 1 a -> P b) ->
    (forall b nestedBlocks,
        In b bs ->
        ~ List.length (longestMatchingLabels (Block_Labels b) (skipn 1 a))
          < List.length (Block_Labels b) ->
        List.length (longestMatchingLabels (Block_Labels b) (skipn 1 a))
          < List.length a - 1 \/ Block_Labels b = [] ->
        nested (Block_Body b)
          (List.length (longestMatchingLabels (Block_Labels b) (skipn 1 a)))
        = Ok nestedBlocks ->
        Forall P nestedBlocks) ->
    Forall P matched ->
    matchBlocks nested a bs matched = Ok found ->
    Forall P found.
Proof.
  induction bs as [|b bs IH]; intros matched found Hfull Hnested Hm.
  - intros [= <-]. exact Hm.
  - assert (Hf' : forall b', In b' bs -> Block_Labels b' <> [] ->
                             Block_Labels b' = skipn 1 a -> P b').
    { intros b' Hin. apply Hfull. now right. }
    assert (Hn' : forall b' nb,
               In b' bs ->
               ~ List.length (longestMatchingLabels (Block_Labels b') (skipn 1 a))
                 < List.length (Block_Labels b') ->
               List.length (longestMatchingLabels (Block_Labels b') (skipn 1 a))
                 < List.length a - 1 \/ Block_Labels b' = [] ->
               nested (Block_Body b')
                 (List.length (longestMatchingLabels (Block_Labels b') (skipn 1 a)))
               = Ok nb ->
               Forall P nb).
    { intros b' nb Hin. apply Hnested. now right. }
    cbn [matchBlocks]. cbv zeta.
    destruct (Nat.ltb_spec
                (List.length (longestMatchingLabels (Block_Labels b) (skipn 1 a)))
                (List.length (Block_Labels b))) as [Hlt|Hge].
    { now apply IH. }
    destruct (_ || _) eqn:Hor.
    + destruct (nested _ _) as [nb|e] eqn:Hn; [|discriminate].
      apply IH; try assumption.
      apply Forall_app. split; [assumption|].
      apply (Hnested b nb); [now left|lia| |exact Hn].
      apply orb_true_iff in Hor. destruct Hor as [Hor|Hor].
      * left. now apply Nat.ltb_lt.
      * right. apply Nat.eqb_eq in Hor. now destruct (Block_Labels b).
    + apply orb_false_iff in Hor. destruct Hor as [Ho1 Ho2].
      apply Nat.ltb_nlt in Ho1. apply Nat.eqb_neq in Ho2.
      apply IH; try assumption.
      apply Forall_app. split; [assumption|].
      constructor; [|constructor].
      apply Hfull; [now left|now destruct (Block_Labels b)|].
      apply full_match_labels; [lia|assumption].
Qed.

Lemma candidate_child (body : Body) (typeName : string) (b : Block) :
  In b (allMatchingBlocksByType body typeName) ->
  In (BlockNode b) body /\ Block_Type b = typeName.
Proof.
  rewrite allMatchingBlocksByType_filter, filter_In, In_Blocks.
  intros [H1 H2]. split; [assumption|].
  symmetry. now apply String.eqb_eq.
Qed.

Lemma child_candidate (body : Body) (b : Block) :
  In (BlockNode b) body ->
  In b (allMatchingBlocksByType body (Block_Type b)).
Proof.
  intros H. rewrite allMatchingBlocksByType_filter, filter_In, In_Blocks.
  split; [assumption|apply String.eqb_refl].
Qed.

Lemma several_segments (address : string) :
  (String.length address =? 0) = false ->
  (List.length (Split address) =? 1) = false ->
  2 <= List.length (Split address).
Proof.
  intros _ H. apply Nat.eqb_neq in H. pose proof (Split_nonempty address).
  destruct (Split address) as [|? [|? ?]]; simpl in *; congruence || lia.
Qed.

(** The blocks found are blocks of the document. *)
Lemma findLongestMatchingBlocks_blockOf (n : nat) :
  forall body address found,
    String.length address < n ->
    findLongestMatchingBlocks body address = Ok found ->
    Forall (blockOf body) found.
Proof.
  induction n as [|n IH]; intros body address found Hn; [lia|].
  rewrite findLongestMatchingBlocks_body.
  destruct (String.length address =? 0) eqn:E0; [discriminate|].
  cbv zeta.
  destruct (List.length (Split address) =? 1) eqn:E1.
  { intros [= <-]. apply Forall_forall. intros b Hb.
    apply candidate_child in Hb. now apply blockOf_child. }
  apply matchBlocks_Forall; [| |constructor].
  - intros b Hb _ _. apply candidate_child in Hb. now apply blockOf_child.
  - intros b nb Hb _ _ Hnested.
    apply candidate_child in Hb. destruct Hb as [Hb _].
    assert (Hne : address <> EmptyString) by (intros ->; discriminate).
    pose proof (nested_address_shorter address
                  (List.length (longestMatchingLabels (Block_Labels b)
                                  (skipn 1 (Split address)))) Hne) as Hlt.
    apply IH in Hnested; [|lia].
    apply Forall_forall. intros x Hx.
    rewrite Forall_forall in Hnested.
    apply blockOf_nested with (parent := b); auto.
Qed.

(** X1. The resolver returns blocks of the document only: every block of
    a successful result is a block of the body, at some depth. *)
Theorem resolver_returns_blocks_of_the_document
    (body : Body) (address : string) (found : list Block) :
  findLongestMatchingBlocks body address = Ok found ->
  Forall (blockOf body) found.
Proof.
  apply (findLongestMatchingBlocks_blockOf (S (String.length address))). lia.
Qed.

(** The block [child] nested in a block [t] is found as a block of the
    document. *)
Lemma resolver_returns_blocks_of_the_document_witness :
  Forall
    (blockOf [BlockNode (mkBlock "t" [] [BlockNode (mkBlock "child" [] [])])])
    [mkBlock "child" [] []].
Proof.
  apply (resolver_returns_blocks_of_the_document
           [BlockNode (mkBlock "t" [] [BlockNode (mkBlock "child" [] [])])]
           "t.child").
  reflexivity.
Defined.

Lemma addressedBy_skipn (k : nat) (segments : list string) (b : Block) :
  addressedBy (skipn k segments) b -> addressedBy segments b.
Proof.
  intros (before & after & E & H).
  exists (firstn k segments ++ before), after. split; [|exact H].
  rewrite <- app_assoc, <- E. symmetry. apply firstn_skipn.
Qed.

Lemma findLongestMatchingBlocks_addressedBy (n : nat) :
  forall body address found,
    String.length address < n ->
    findLongestMatchingBlocks body address = Ok found ->
    Forall (addressedBy (Split address)) found.
Proof.
  induction n as [|n IH]; intros body address found Hn; [lia|].
  rewrite findLongestMatchingBlocks_body.
  destruct (String.length address =? 0) eqn:E0; [discriminate|].
  cbv zeta.
  destruct (List.length (Split address) =? 1) eqn:E1.
  { intros [= <-]. apply Forall_forall. intros b Hb.
    apply candidate_child in Hb. destruct Hb as [_ Ht].
    apply Nat.eqb_eq in E1.
    destruct (Split address) as [|x [|y rest]]; try discriminate.
    exists [], []. simpl in Ht. rewrite Ht. auto. }
  pose proof (several_segments _ E0 E1) as Ha.
  apply matchBlocks_Forall; [| |constructor].
  - intros b Hb _ Hl. apply candidate_child in Hb. destruct Hb as [_ Ht].
    exists [], (Block_Labels b). split; [|now right].
    rewrite Hl, Ht. destruct (Split address); [simpl in Ha; lia|reflexivity].
  - intros b nb Hb _ Hcond Hnested.
    assert (Hne : address <> EmptyString) by (intros ->; discriminate).
    pose proof (nested_address_shorter address
                  (List.length (longestMatchingLabels (Block_Labels b)
                                  (skipn 1 (Split address)))) Hne) as Hlt.
    apply IH in Hnested; [|lia].
    rewrite (nested_address_segments address (Block_Labels b) Ha Hcond),
      <- skipn_succ in Hnested.
    eapply Forall_impl; [|exact Hnested].
    intros x. apply addressedBy_skipn.
Qed.

(** X2. Every block the resolver returns is named by the address: its
    type is one of the segments, and that segment is the last one or is
    followed by exactly the block's labels, up to the end of the address. *)
Theorem resolver_blocks_are_named_by_the_address
    (body : Body) (address : string) (found : list Block) :
  findLongestMatchingBlocks body address = Ok found ->
  forall b, In b found ->
    exists before after,
      Split address = before ++ Block_Type b :: after
      /\ (after = [] \/ after = Block_Labels b).
Proof.
  intros H b Hb.
  apply (findLongestMatchingBlocks_addressedBy (S (String.length address)))
    in H; [|lia].
  rewrite Forall_forall in H. exact (H b Hb).
Qed.

(** The resource block under the address of its type and labels. *)
Lemma resolver_blocks_are_named_by_the_address_witness :
  exists before after,
    Split "resource.aws_instance.foo" = before ++ Block_Type resourceBlock :: after
    /\ (after = [] \/ after = Block_Labels resourceBlock).
Proof.
  apply (resolver_blocks_are_named_by_the_address resourceDocument
           "resource.aws_instance.foo" [resourceBlock]).
  - reflexivity.
  - left. reflexivity.
Defined.

Lemma firstAttribute_Some (blocks : list Block) (attrName : string)
    (attr : Attribute) (owner : option Body) :
  firstAttribute blocks attrName = (Some attr, owner) ->
  exists b,
    In b blocks /\ GetAttribute (Block_Body b) attrName = Some attr
    /\ owner = Some (Block_Body b).
Proof.
  induction blocks as [|b blocks IH]; [discriminate|].
  cbn [firstAttribute].
  destruct (GetAttribute (Block_Body b) attrName) as [attr'|] eqn:E.
  - intros [= -> <-]. exists b. repeat split; [now left|assumption].
  - intros H. destruct (IH H) as (b' & Hin & Hb'). exists b'. split; [now right|assumption].
Qed.

Lemma last_segment (l : list string) :
  l <> [] -> nth (List.length l - 1) l EmptyString = last l EmptyString.
Proof.
  intros H. destruct (exists_last H) as (l' & x & ->).
  now rewrite nth_last, last_last.
Qed.

(** X3. What [findAttribute] finds is in the document under the name
    asked for: the attribute returned is named by the last segment of the
    address and is an item of the body returned with it, which is the
    body searched (address without a dot) or the body of one of its
    blocks, at some depth (address with dots). No attribute comes
    without its body. *)
Theorem findAttribute_finds_in_the_document
    (body : Body) (address : string) (attr : Attribute) (owner : option Body) :
  findAttribute body address = Ok (Some attr, owner) ->
  name attr = last (Split address) EmptyString
  /\ exists holder,
       owner = Some holder
       /\ In (AttrNode attr) holder
       /\ ((hasDot address = false /\ holder = body)
           \/ (hasDot address = true
               /\ exists b, blockOf body b /\ holder = Block_Body b)).
Proof.
  unfold findAttribute.
  destruct (String.length address =? 0) eqn:E0; [discriminate|].
  cbv zeta. rewrite <- (last_segment _ (Split_nonempty address)).
  destruct (List.length (Split address) =? 1) eqn:E1.
  - apply Nat.eqb_eq in E1. rewrite E1. cbn [Nat.sub].
    intros [= Hg <-].
    apply GetAttribute_In in Hg. destruct Hg as [Hin Hname].
    split; [assumption|]. exists body. repeat split; [assumption|].
    left. split; [now apply Split_one_segment|reflexivity].
  - pose proof (several_segments _ E0 E1) as Ha.
    destruct (findLongestMatchingBlocks body _) as [blocks|e] eqn:E;
      [|discriminate].
    intros H.
    assert (Hf : firstAttribute blocks
                   (nth (List.length (Split address) - 1) (Split address)
                      EmptyString) = (Some attr, owner)).
    { destruct (List.length blocks =? 0); [discriminate|congruence]. }
    apply firstAttribute_Some in Hf. destruct Hf as (b & Hin & Hg & ->).
    apply GetAttribute_In in Hg. destruct Hg as [Hattr Hname].
    split; [assumption|]. exists (Block_Body b). repeat split; [assumption|].
    right. split.
    + destruct (hasDot address) eqn:Hd; [reflexivity|].
      apply Split_one_segment in Hd. lia.
    + exists b. split; [|reflexivity].
      apply (findLongestMatchingBlocks_blockOf _ _ _ _ (Nat.lt_succ_diag_r _))
        in E.
      rewrite Forall_forall in E. now apply E.
Qed.

(** The [ami] of the resource block. *)
Lemma findAttribute_finds_in_the_document_witness :
  name (stringAttribute "ami" "x")
  = last (Split "resource.aws_instance.foo.ami") EmptyString.
Proof.
  exact (proj1 (findAttribute_finds_in_the_document resourceDocument
                  "resource.aws_instance.foo.ami" (stringAttribute "ami" "x")
                  (Some (Block_Body resourceBlock)) eq_refl)).
Defined.

(** ** Addresses without an empty segment *)

Lemma In_skipn_In (k : nat) (l : list string) (x : string) :
  In x (skipn k l) -> In x l.
Proof.
  intros H. rewrite <- (firstn_skipn k l). apply in_or_app. now right.
Qed.

(** A search comes to an empty address only when the address has an
    empty segment. *)
Lemma emptySubAddress_empty_segment (body : Body) (address : string) :
  emptySubAddress body address -> In EmptyString (Split address).
Proof.
  induction 1 as [body|body address b a matchedlabels Ha Hin H1 H2 Hsub IH].
  - now left.
  - unfold matchedlabels, a in IH.
    rewrite (nested_address_segments address (Block_Labels b) Ha H2) in IH.
    now apply In_skipn_In, In_skipn_In in IH.
Qed.

Lemma findLongestMatchingBlocks_total (body : Body) (address : string) :
  ~ In EmptyString (Split address) ->
  exists found, findLongestMatchingBlocks body address = Ok found.
Proof.
  intros H.
  destruct (findLongestMatchingBlocks body address) as [found|e] eqn:E;
    [now exists found|].
  apply findLongestMatchingBlocks_Err_iff in E. destruct E as [_ E].
  now apply emptySubAddress_empty_segment in E.
Qed.

Lemma In_firstn_In (k : nat) (l : list string) (x : string) :
  In x (firstn k l) -> In x l.
Proof.
  intros H. rewrite <- (firstn_skipn k l). apply in_or_app. now left.
Qed.

(** The block address of an address of several segments splits into
    those segments but the last. *)
Lemma block_address_segments (address : string) :
  2 <= List.length (Split address) ->
  Split (Join (firstn (List.length (Split address) - 1) (Split address)))
  = firstn (List.length (Split address) - 1) (Split address).
Proof.
  intros Ha. apply Split_Join.
  - intros E. apply (f_equal (@List.length string)) in E.
    rewrite length_firstn in E. simpl in E. lia.
  - apply Forall_firstn, Split_segments.
Qed.

(** X4. An address without an empty segment never fails: when no
    segment of the address is empty (no leading, trailing or doubled dot,
    and the address is not empty), the resolver and [findAttribute]
    return a result, found or not, on every document. *)
Theorem address_without_empty_segment_never_fails
    (body : Body) (address : string) :
  ~ In EmptyString (Split address) ->
  (exists found, findLongestMatchingBlocks body address = Ok found)
  /\ (exists result, findAttribute body address = Ok result).
Proof.
  intros H. split; [now apply findLongestMatchingBlocks_total|].
  unfold findAttribute.
  destruct (String.length address =? 0) eqn:E0.
  { apply length_zero_empty in E0. subst address. exfalso. apply H. now left. }
  cbv zeta.
  destruct (List.length (Split address) =? 1) eqn:E1; [eexists; reflexivity|].
  pose proof (several_segments _ E0 E1) as Ha.
  destruct (findLongestMatchingBlocks_total body
              (Join (firstn (List.length (Split address) - 1) (Split address))))
    as [blocks Hb].
  { rewrite (block_address_segments _ Ha). intros Hin. apply H.
    now apply In_firstn_In in Hin. }
  rewrite Hb. destruct (List.length blocks =? 0); eexists; reflexivity.
Qed.

(** An address of three segments on the document of two blocks. *)
Lemma address_without_empty_segment_never_fails_witness :
  (exists found, findLongestMatchingBlocks twoBlocksDocument "a.x.b" = Ok found)
  /\ (exists result, findAttribute twoBlocksDocument "a.x.b" = Ok result).
Proof.
  apply (address_without_empty_segment_never_fails twoBlocksDocument "a.x.b").
  simpl. intros [H|[H|[H|[]]]]; discriminate.
Defined.

(** X5. The label rule, read on the segments: the labels of a block are
    matched in full exactly when the remaining segments start with them;
    a block whose labels the remaining segments do not start with is
    passed over by the loop, and a block whose labels they start with is
    searched further past its labels when segments are left or it has no
    label, and appended itself otherwise. *)
Theorem labels_matched_in_full_iff_prefix :
  (forall labels segments,
      List.length (longestMatchingLabels labels segments) = List.length labels
      <-> isPrefix labels segments)
  /\ (forall nested a b rest matched,
        ~ isPrefix (Block_Labels b) (skipn 1 a) ->
        matchBlocks nested a (b :: rest) matched
        = matchBlocks nested a rest matched)
  /\ (forall nested a b rest matched,
        isPrefix (Block_Labels b) (skipn 1 a) ->
        matchBlocks nested a (b :: rest) matched
        = match
            (if (List.length (Block_Labels b) <? List.length a - 1)
                || (List.length (Block_Labels b) =? 0)
             then nested (Block_Body b) (List.length (Block_Labels b))
             else Ok [b])
          with
          | Err e => Err e
          | Ok blocks => matchBlocks nested a rest (matched ++ blocks)
          end).
Proof.
  split; [exact matched_in_full_iff|]. split.
  - intros nested a b rest matched Hnp. apply matchBlocks_skip.
    destruct (commonPrefix_length_le (Block_Labels b) (skipn 1 a)) as [L _].
    rewrite <- longestMatchingLabels_eq in L.
    destruct (Nat.eq_dec
                (List.length (longestMatchingLabels (Block_Labels b) (skipn 1 a)))
                (List.length (Block_Labels b))) as [E|E]; [|lia].
    apply matched_in_full_iff in E. contradiction.
  - intros nested a b rest matched Hp.
    apply matched_in_full_iff in Hp.
    destruct (_ || _) eqn:Hor.
    + rewrite <- Hp. apply matchBlocks_nested; [lia|].
      apply orb_true_iff in Hor. destruct Hor as [Hor|Hor].
      * left. apply Nat.ltb_lt in Hor. lia.
      * right. apply Nat.eqb_eq in Hor. now destruct (Block_Labels b).
    + apply orb_false_iff in Hor. destruct Hor as [Ho1 Ho2].
      apply Nat.ltb_nlt in Ho1. apply Nat.eqb_neq in Ho2.
      apply matchBlocks_full; [lia|lia|now destruct (Block_Labels b)].
Qed.

(** ** Finding what is there *)


(** A labelled block of the body is in the result for its type and
    labels. *)
Lemma labelled_block_found (body : Body) (b : Block) :
  In (BlockNode b) body ->
  Block_Labels b <> [] ->
  Forall (fun s => hasDot s = false) (Block_Type b :: Block_Labels b) ->
  ~ In EmptyString (Block_Type b :: Block_Labels b) ->
  exists found,
    findLongestMatchingBlocks body (Join (Block_Type b :: Block_Labels b))
    = Ok found
    /\ In b found.
Proof.
  intros Hin Hl Hdots Hne.
  assert (HS : Split (Join (Block_Type b :: Block_Labels b))
               = Block_Type b :: Block_Labels b).
  { apply Split_Join; [discriminate|assumption]. }
  destruct (findLongestMatchingBlocks_total body
              (Join (Block_Type b :: Block_Labels b))) as [found Hf].
  { now rewrite HS. }
  exists found. split; [exact Hf|].
  revert Hf. rewrite findLongestMatchingBlocks_body.
  destruct (String.length _ =? 0); [discriminate|].
  cbv zeta. rewrite HS. cbn [nth skipn List.length].
  destruct (Block_Labels b) as [|l ls] eqn:El; [congruence|].
  cbn [List.length Nat.eqb]. rewrite <- El.
  apply matchBlocks_full_In.
  - now apply child_candidate.
  - cbn [skipn]. rewrite longestMatchingLabels_eq.
    rewrite <- (app_nil_r (Block_Labels b)) at 2.
    rewrite commonPrefix_refl. lia.
  - cbn [skipn]. rewrite longestMatchingLabels_eq.
    rewrite <- (app_nil_r (Block_Labels b)) at 2.
    rewrite commonPrefix_refl. cbn [List.length]. lia.
  - congruence.
Qed.

(** X6. A labelled block is found by its type and labels: for a block of
    the body with at least one label, whose type and labels hold no dot
    and are not empty, the resolver succeeds on the address made of the
    type and the labels joined by dots, and the block is in the result. *)
Theorem labelled_block_found_by_type_and_labels (body : Body) (b : Block) :
  In (BlockNode b) body ->
  Block_Labels b <> [] ->
  Forall (fun s => hasDot s = false) (Block_Type b :: Block_Labels b) ->
  ~ In EmptyString (Block_Type b :: Block_Labels b) ->
  exists found,
    findLongestMatchingBlocks body (Join (Block_Type b :: Block_Labels b))
    = Ok found
    /\ In b found.
Proof. apply labelled_block_found. Qed.

(** The resource block, found by "resource.aws_instance.foo". *)
Lemma labelled_block_found_by_type_and_labels_witness :
  exists found,
    findLongestMatchingBlocks resourceDocument
      (Join (Block_Type resourceBlock :: Block_Labels resourceBlock))
    = Ok found
    /\ In resourceBlock found.
Proof.
  apply (labelled_block_found_by_type_and_labels resourceDocument resourceBlock).
  - left. reflexivity.
  - discriminate.
  - repeat constructor.
  - simpl. intros [H|[H|[H|[]]]]; discriminate.
Defined.

Lemma firstAttribute_found (blocks : list Block) (attrName : string)
    (b : Block) (attr : Attribute) :
  In b blocks ->
  GetAttribute (Block_Body b) attrName = Some attr ->
  exists b' attr',
    In b' blocks
    /\ GetAttribute (Block_Body b') attrName = Some attr'
    /\ firstAttribute blocks attrName = (Some attr', Some (Block_Body b')).
Proof.
  intros Hin Hg.
  destruct (firstAttribute_first blocks attrName)
    as [(pre & b' & post & attr' & -> & _ & Hg' & Hf)|[Hall _]].
  - exists b', attr'. repeat split; [|assumption|assumption].
    apply in_or_app. right. now left.
  - rewrite Forall_forall in Hall. specialize (Hall b Hin). congruence.
Qed.



(** ** What the resolver does not read *)

(** The resolver reads the body through its blocks of the type of the
    first segment. *)
Lemma findLongestMatchingBlocks_candidates (body body' : Body) (address : string) :
  allMatchingBlocksByType body (nth 0 (Split address) EmptyString)
  = allMatchingBlocksByType body' (nth 0 (Split address) EmptyString) ->
  findLongestMatchingBlocks body address
  = findLongestMatchingBlocks body' address.
Proof.
  intros H. rewrite !findLongestMatchingBlocks_body. cbv zeta. now rewrite H.
Qed.

Lemma no_candidate (body : Body) (typeName : string) :
  (forall b, In (BlockNode b) body -> Block_Type b <> typeName) ->
  allMatchingBlocksByType body typeName = [].
Proof.
  intros H. destruct (allMatchingBlocksByType body typeName) as [|b bs] eqn:E;
    [reflexivity|].
  assert (Hb : In b (allMatchingBlocksByType body typeName))
    by (rewrite E; now left).
  apply candidate_child in Hb. destruct Hb as [Hin Ht].
  now apply H in Hin.
Qed.

Lemma findLongestMatchingBlocks_no_candidate (body : Body) (address : string) :
  address <> EmptyString ->
  (forall b, In (BlockNode b) body ->
             Block_Type b <> nth 0 (Split address) EmptyString) ->
  findLongestMatchingBlocks body address = Ok [].
Proof.
  intros Hne H.
  rewrite findLongestMatchingBlocks_body, (nonempty_length _ Hne). cbv zeta.
  rewrite (no_candidate _ _ H). now destruct (_ =? _).
Qed.

Lemma nth_0_firstn (k : nat) (l : list string) :
  0 < k -> nth 0 (firstn k l) EmptyString = nth 0 l EmptyString.
Proof. destruct k; [lia|]. now destruct l. Qed.

(** X8. A missing block type is not an error: when the body has no
    block of the type named by the first segment, the resolver returns
    the empty list on every non-empty address, whatever segments follow,
    and [findAttribute] on an address with a dot whose first segment is
    not empty returns no attribute, no body and no error. *)
Theorem missing_block_type_is_not_found (body : Body) (address : string) :
  address <> EmptyString ->
  (forall b, In (BlockNode b) body ->
             Block_Type b <> nth 0 (Split address) EmptyString) ->
  findLongestMatchingBlocks body address = Ok []
  /\ (hasDot address = true ->
      nth 0 (Split address) EmptyString <> EmptyString ->
      findAttribute body address = Ok (None, None)).
Proof.
  intros Hne H. split; [now apply findLongestMatchingBlocks_no_candidate|].
  intros Hdot Hfirst. apply Split_with_dot in Hdot.
  unfold findAttribute. rewrite (nonempty_length _ Hne). cbv zeta.
  destruct (List.length (Split address) =? 1) eqn:E1;
    [apply Nat.eqb_eq in E1; lia|].
  assert (Hnth : nth 0 (Split (Join (firstn (List.length (Split address) - 1)
                                       (Split address)))) EmptyString
                 = nth 0 (Split address) EmptyString).
  { rewrite (block_address_segments _ Hdot). apply nth_0_firstn. lia. }
  rewrite findLongestMatchingBlocks_no_candidate; [reflexivity| |].
  - intros E. apply Hfirst. rewrite <- Hnth, E. reflexivity.
  - intros b Hb. rewrite Hnth. now apply H.
Qed.

(** No block [b] in the document of two blocks [a]. *)
Lemma missing_block_type_is_not_found_witness :
  findLongestMatchingBlocks twoBlocksDocument "b.x." = Ok []
  /\ (hasDot "b.x." = true ->
      nth 0 (Split "b.x.") EmptyString <> EmptyString ->
      findAttribute twoBlocksDocument "b.x." = Ok (None, None)).
Proof.
  apply (missing_block_type_is_not_found twoBlocksDocument "b.x.").
  - discriminate.
  - intros b [H|[H|[]]]; injection H as <-; discriminate.
Defined.

(** X9. The resolver reads nothing of the body but its blocks of the
    type named by the first segment: taking an attribute of the body
    away, or a block of another type, changes neither its result nor its
    error. *)
Theorem resolver_reads_blocks_of_the_type_only :
  (forall before after attr address,
      findLongestMatchingBlocks (before ++ AttrNode attr :: after) address
      = findLongestMatchingBlocks (before ++ after) address)
  /\ (forall before after b address,
        Block_Type b <> nth 0 (Split address) EmptyString ->
        findLongestMatchingBlocks (before ++ BlockNode b :: after) address
        = findLongestMatchingBlocks (before ++ after) address).
Proof.
  split.
  - intros before after attr address.
    apply findLongestMatchingBlocks_candidates.
    now rewrite !allMatchingBlocksByType_filter, !Blocks_app.
  - intros before after b address Ht.
    apply findLongestMatchingBlocks_candidates.
    rewrite filter_type_middle, filter_type_app.
    destruct (String.eqb_spec (nth 0 (Split address) EmptyString) (Block_Type b));
      [congruence|reflexivity].
Qed.

(** A block [other] between the two blocks [a]. *)
Lemma resolver_reads_blocks_of_the_type_only_witness :
  findLongestMatchingBlocks
    ([BlockNode firstA] ++ BlockNode (mkBlock "other" [] []) :: [BlockNode secondA])
    "a"
  = findLongestMatchingBlocks ([BlockNode firstA] ++ [BlockNode secondA]) "a".
Proof.
  apply (proj2 resolver_reads_blocks_of_the_type_only
           [BlockNode firstA] [BlockNode secondA] (mkBlock "other" [] []) "a").
  discriminate.
Defined.

(* ===================================================================== *)
(** * Further properties of the filter and the sink                       *)
(* ===================================================================== *)









(** X12. The one failure of the sink: it fails exactly when the file has
    an attribute under the address whose expression holds no
    [TokenEqual], and the error names that attribute. An absent attribute
    and an empty address are no errors for the sink. *)
Theorem sink_fails_only_without_TokenEqual
    (f : attributeGet) (file : File) (e : error) :
  Sink f file = Err e
  <-> exists attr,
        GetAttribute (File_Body file) (address f) = Some attr
        /\ Forall notEqual (Expr_BuildTokens attr)
        /\ e = errTokenEqual attr.
Proof.
  { unfold Sink. cbv zeta.
    destruct (GetAttribute (File_Body file) (address f)) as [attr|] eqn:Hg.
    - destruct (first_TokenEqual (Expr_BuildTokens attr))
        as [Hno|(before & equals & after & E & Hb & He)].
      + unfold getAttributeValueAsString. cbv zeta.
        rewrite (indexOfTokenEqual_none _ Hno), Nat.eqb_refl. split.
        * intros [= <-]. now exists attr.
        * intros (attr' & [= <-] & _ & ->). reflexivity.
      + destruct (first_TokenComment after) as (value & rest & -> & Hv & Hr).
        rewrite (getAttributeValueAsString_value attr before value rest equals
                   E Hb He Hv Hr).
        split; [discriminate|].
        intros (attr' & [= <-] & Hno & _). exfalso.
        rewrite E in Hno. apply Forall_app in Hno. destruct Hno as [_ Hno].
        inversion Hno; subst. contradiction.
    - split; [discriminate|]. intros (attr' & H & _). discriminate. }
Qed.

(** ** The attribute of a labelled block, and the shape of what is written *)

(** X13. An attribute of a labelled block is found by type, labels and
    name: for a block of the body with at least one label, whose type and
    labels hold no dot and are not empty, and an attribute of it whose
    name holds no dot, [findAttribute] on the type, the labels and the
    name joined by dots returns an attribute of that name, with the body
    of a block of the document that holds it. *)
Theorem attribute_found_by_type_labels_and_name
    (body : Body) (b : Block) (attrName : string) (attr : Attribute) :
  In (BlockNode b) body ->
  Block_Labels b <> [] ->
  Forall (fun s => hasDot s = false) (Block_Type b :: Block_Labels b) ->
  ~ In EmptyString (Block_Type b :: Block_Labels b) ->
  hasDot attrName = false ->
  GetAttribute (Block_Body b) attrName = Some attr ->
  exists b' attr',
    findAttribute body (Join ((Block_Type b :: Block_Labels b) ++ [attrName]))
    = Ok (Some attr', Some (Block_Body b'))
    /\ blockOf body b'
    /\ In (AttrNode attr') (Block_Body b')
    /\ name attr' = attrName.
Proof.
  intros Hin Hl Hdots Hne Hda Hg.
  assert (HS : Split (Join ((Block_Type b :: Block_Labels b) ++ [attrName]))
               = (Block_Type b :: Block_Labels b) ++ [attrName]).
  { apply Split_Join; [discriminate|].
    apply Forall_app. split; [assumption|]. now constructor. }
  rewrite (findAttribute_dotted_body body _ (Block_Type b :: Block_Labels b)
             attrName ltac:(discriminate) HS).
  destruct (labelled_block_found body b Hin Hl Hdots Hne) as (found & Hf & Hb).
  rewrite Hf.
  destruct (firstAttribute_found found attrName b attr Hb Hg)
    as (b' & attr' & Hb' & Hg' & Hfirst).
  exists b', attr'. rewrite Hfirst.
  apply GetAttribute_In in Hg'. destruct Hg' as [Ha Hn].
  repeat split; try assumption.
  apply (findLongestMatchingBlocks_blockOf _ _ _ _ (Nat.lt_succ_diag_r _)) in Hf.
  rewrite Forall_forall in Hf. now apply Hf.
Qed.

(** The [ami] of the resource block, by its whole address. *)
Lemma attribute_found_by_type_labels_and_name_witness :
  exists b' attr',
    findAttribute resourceDocument
      (Join ((Block_Type resourceBlock :: Block_Labels resourceBlock) ++ ["ami"]))
    = Ok (Some attr', Some (Block_Body b'))
    /\ blockOf resourceDocument b'
    /\ In (AttrNode attr') (Block_Body b')
    /\ name attr' = "ami".
Proof.
  apply (attribute_found_by_type_labels_and_name resourceDocument resourceBlock
           "ami" (stringAttribute "ami" "x")).
  - left. reflexivity.
  - discriminate.
  - repeat constructor.
  - simpl. intros [H|[H|[H|[]]]]; discriminate.
  - reflexivity.
  - reflexivity.
Defined.

(** X14. What the sink writes, when it writes: nothing, or a value and
    one newline after it, where the value has no white space at its start
    nor at its end. *)
Theorem sink_writes_a_trimmed_value
    (f : attributeGet) (file : File) (out : string) :
  Sink f file = Ok out ->
  out = EmptyString
  \/ exists value,
       out = (value ++ newline)%string
       /\ spaceLen (fun w => w) value = 0
       /\ spaceLen revString (revString value) = 0.
Proof.
  unfold Sink. cbv zeta.
  destruct (GetAttribute (File_Body file) (address f)) as [attr|].
  - unfold getAttributeValueAsString. cbv zeta.
    destruct (_ =? _); [discriminate|].
    intros [= <-]. right. eexists. split; [reflexivity|].
    apply TrimSpace_trimmed.
  - intros [= <-]. now left.
Qed.

(** The filter's file for [name = "value" # comment]. *)
Lemma sink_writes_a_trimmed_value_witness :
  (quote ++ "value" ++ quote ++ newline)%string = EmptyString
  \/ exists value,
       (quote ++ "value" ++ quote ++ newline)%string = (value ++ newline)%string
       /\ spaceLen (fun w => w) value = 0
       /\ spaceLen revString (revString value) = 0.
Proof.
  apply (sink_writes_a_trimmed_value (mkAttributeGet "name")
           (mkFile [AttrNode (newAttribute "name"
                                (Attribute_BuildTokens commentedAttribute))])).
  reflexivity.
Defined.

End editor.
